(** * Engineering Knowledge Graph: graph store, connectors and query engine

    Shallow embedding of [src/graph/storage.py], [src/graph/query.py] and
    the connectors under [src/connectors/].  The store is a Neo4j database
    driven through Cypher strings; it is modelled as the property graph
    those queries act on: a list of nodes (a node's identity is its
    position, its content a flat property map in which [id], [type] and
    [name] are ordinary properties) and a list of relationships of label
    [EDGE] (identity = position, endpoints = node identities, content = a
    flat property map holding [id] and [type]).  Python [None] sent as a
    query parameter is Cypher [null]. *)

From stdpp Require Import base gmap list strings.
From Stdlib Require Import ZArith Ascii.

(** ** Values and property maps *)

Inductive value :=
| VStr (s : string)
| VInt (z : Z)
| VBool (b : bool).

#[global] Instance value_eq_dec : EqDecision value.
Proof. solve_decision. Defined.

(** A stored property map (Neo4j never stores null). *)
Abbreviation props := (gmap string value).

(** A Python dict sent as a parameter: [None] is a null value. *)
Abbreviation pyprops := (gmap string (option value)).

(** Cypher [SET m += $p]: every key of [p] is written; a null value
    removes the key; keys absent from [p] are untouched. *)
Definition set_plus (m : props) (p : pyprops) : props :=
  merge (fun (old : option value) (new : option (option value)) =>
           match new with Some ov => ov | None => old end) m p.

(** ** The Python data model ([connectors/base.py]) *)

Record Node := mkNode {
  nid : string;
  ntype : string;
  nname : string;
  nproperties : pyprops
}.

Record Edge := mkEdge {
  eid : string;
  etype : string;
  esource : string;
  etarget : string;
  eproperties : pyprops
}.

(** ** The Neo4j store *)

Record grel := GRel {
  rsrc : nat;
  rtgt : nat;
  rprops : props
}.

Record store := Store {
  snodes : list props;
  srels : list grel
}.

Definition empty_store : store := Store [] [].

(** The pattern [(n {id: $id})]. *)
Definition has_id (n : props) (i : string) : bool :=
  bool_decide (n !! "id" = Some (VStr i)).

(** The identities of the nodes matched by [(n {id: $id})], in store order. *)
Definition node_idxs (s : store) (i : string) : list nat :=
  map fst (filter (fun p => has_id p.2 i = true) (imap pair (snodes s))).

(** *** [GraphStorage.upsert_node]
<<
    MERGE (n {id: $id})
    SET n.type = $type, n.name = $name, n += $properties
>> *)

Definition set_node (nd : Node) (n : props) : props :=
  set_plus (<["name" := VStr (nname nd)]> (<["type" := VStr (ntype nd)]> n))
           (nproperties nd).

Definition upsert_node (s : store) (nd : Node) : store :=
  if existsb (fun n => has_id n (nid nd)) (snodes s)
  then Store (map (fun n => if has_id n (nid nd) then set_node nd n else n)
                  (snodes s))
             (srels s)
  else Store (snodes s ++ [set_node nd {["id" := VStr (nid nd)]}]) (srels s).

Definition bulk_upsert_nodes (s : store) (nodes : list Node) : store :=
  fold_left upsert_node nodes s.

(** *** [GraphStorage.upsert_edge]
<<
    MATCH (source {id: $source})
    MATCH (target {id: $target})
    MERGE (source)-[r:EDGE {id: $id}]->(target)
    SET r.type = $type, r += $properties
>>
    One row per (source, target) pair of matched nodes; MERGE runs row by
    row and sees the relationships created by earlier rows. *)

Definition set_rel (e : Edge) (r : grel) : grel :=
  GRel (rsrc r) (rtgt r) (set_plus (<["type" := VStr (etype e)]> (rprops r))
                                   (eproperties e)).

Definition rel_matches (e : Edge) (a b : nat) (r : grel) : bool :=
  Nat.eqb (rsrc r) a && Nat.eqb (rtgt r) b && has_id (rprops r) (eid e).

Definition merge_rel (e : Edge) (rels : list grel) (ab : nat * nat) : list grel :=
  let '(a, b) := ab in
  if existsb (rel_matches e a b) rels
  then map (fun r => if rel_matches e a b r then set_rel e r else r) rels
  else rels ++ [set_rel e (GRel a b {["id" := VStr (eid e)]})].

Definition upsert_edge (s : store) (e : Edge) : store :=
  Store (snodes s)
        (fold_left (merge_rel e)
                   (list_prod (node_idxs s (esource e)) (node_idxs s (etarget e)))
                   (srels s)).

Definition bulk_upsert_edges (s : store) (edges : list Edge) : store :=
  fold_left upsert_edge edges s.

(** ** The query engine ([graph/query.py])

    Cypher fixes no row order without ORDER BY; the model enumerates rows
    in store order.  Claims about sets of rows do not depend on it. *)

(** [GraphStorage.get_node]: [MATCH (n {id: $id}) RETURN n], then
    [result.single()]: the first record, or [None] when there is none. *)
Definition get_node (s : store) (i : string) : option props :=
  head (filter (fun n => has_id n i = true) (snodes s)).

(** *** Variable-length patterns

    [(a)-[r:EDGE*1..k]->(b)] matches trails: walks of 1 to k
    relationships, no relationship used twice within one path.  The
    direction of the pattern is [Fwd] ([->] from the bound node), [Bwd]
    ([<-], the [upstream] query read from its bound end) or [Undir]
    ([-], the [path] query). *)

Inductive dir := Fwd | Bwd | Undir.

Definition crosses (d : dir) (r : grel) (u v : nat) : Prop :=
  match d with
  | Fwd => rsrc r = u /\ rtgt r = v
  | Bwd => rtgt r = u /\ rsrc r = v
  | Undir => (rsrc r = u /\ rtgt r = v) \/ (rtgt r = u /\ rsrc r = v)
  end.

(** A walk is a list of steps (relationship identity, node reached). *)
Inductive walk (s : store) (d : dir) : nat -> list (nat * nat) -> nat -> Prop :=
| walk_nil i : walk s d i [] i
| walk_cons i k r n st j :
    srels s !! k = Some r -> crosses d r i n -> walk s d n st j ->
    walk s d i ((k, n) :: st) j.

(** The next node along a directed relationship, if [cur] is its tail. *)
Definition dnext (fwd : bool) (r : grel) (cur : nat) : option nat :=
  if fwd then (if Nat.eqb (rsrc r) cur then Some (rtgt r) else None)
  else (if Nat.eqb (rtgt r) cur then Some (rsrc r) else None).

(** End nodes of all directed trails of 1 to [fuel] relationships from
    [cur] avoiding the relationships in [used]. *)
Fixpoint trail_ends (rels : list grel) (fwd : bool) (fuel : nat)
    (used : list nat) (cur : nat) : list nat :=
  match fuel with
  | 0 => []
  | S f =>
      flat_map (fun k =>
        match rels !! k with
        | Some r =>
            if bool_decide (k ∈ used) then []
            else match dnext fwd r cur with
                 | Some n => n :: trail_ends rels fwd f (k :: used) n
                 | None => []
                 end
        | None => []
        end) (seq 0 (length rels))
  end.

(** The node identities returned by
<<
    MATCH (start {id: $node_id})
    MATCH path = (start)-[r:EDGE*1..10]->(downstream)
    WITH DISTINCT downstream RETURN downstream
>>
    ([fwd = true]), or by the [upstream] query ([fwd = false]).  The
    [edge_types] branch of the source is not modelled: its filter reads
    [r.type] on the relationship list [r]. *)
Definition reach_idxs (s : store) (fwd : bool) (i : string) : list nat :=
  remove_dups (flat_map (trail_ends (srels s) fwd 10 []) (node_idxs s i)).

Definition nodes_at (s : store) (js : list nat) : list props :=
  omap (fun j => snodes s !! j) js.

(** [QueryEngine.downstream] and [QueryEngine.upstream] without
    [edge_types]. *)
Definition downstream (s : store) (i : string) : list props :=
  nodes_at s (reach_idxs s true i).

Definition upstream (s : store) (i : string) : list props :=
  nodes_at s (reach_idxs s false i).

(** [n.get("id")] for each returned node dict. *)
Definition ids_of (ns : list props) : list (option value) :=
  map (fun n => n !! "id") ns.

(** [QueryEngine.get_owner]:
<<
    MATCH (team {type: 'team'})-[r:EDGE {type: 'owns'}]->(target {id: $node_id})
    RETURN team
>>
    followed by [result.single()], which returns the first record (the
    driver only warns when there are more) or [None].  The parameter is
    whatever [n.get("id")] gave, possibly [None] (null matches nothing). *)
Definition owner_rows (s : store) (v : option value) : list props :=
  omap (fun r =>
    match snodes s !! rsrc r, snodes s !! rtgt r with
    | Some team, Some target =>
        if bool_decide (team !! "type" = Some (VStr "team")
                        /\ rprops r !! "type" = Some (VStr "owns")
                        /\ is_Some v /\ target !! "id" = v)
        then Some team else None
    | _, _ => None
    end) (srels s).

Definition get_owner_v (s : store) (v : option value) : option props :=
  head (owner_rows s v).

Definition get_owner (s : store) (i : string) : option props :=
  get_owner_v s (Some (VStr i)).

(** *** [QueryEngine.blast_radius] *)


(** [s.add(x)] on a Python set, kept in insertion order. *)
Definition py_set_add {A} `{EqDecision A} (acc : list A) (x : A) : list A :=
  if bool_decide (x ∈ acc) then acc else acc ++ [x].


(** *** [QueryEngine.path]
<<
    MATCH (start {id: $from_id}), (end {id: $to_id})
    MATCH path = shortestPath((start)-[*..15]-(end))
    UNWIND nodes(path) as node
    RETURN DISTINCT node
>>
    [shortestPath] returns one shortest trail of 1 to 15 relationships
    ignoring direction; which one among several of equal length is left
    to the engine, so the query is modelled as a relation.  With default
    settings Neo4j refuses a [shortestPath] whose two ends are the same
    node.  Stores whose ids are unique (the only ones the load pipeline
    builds) are described; others are left unconstrained. *)

Inductive outcome (A : Type) :=
| Ret (a : A)
| Raise (exn : string).
Arguments Ret {A} _.
Arguments Raise {A} _.

Definition trail (s : store) (i : nat) (st : list (nat * nat)) (j : nat) : Prop :=
  walk s Undir i st j /\ NoDup (map fst st) /\ 1 <= length st <= 15.

Inductive path_rel (s : store) (from_id to_id : string) : outcome (list props) -> Prop :=
| path_no_match :
    node_idxs s from_id = [] \/ node_idxs s to_id = [] ->
    path_rel s from_id to_id (Ret [])
| path_same i :
    node_idxs s from_id = [i] -> node_idxs s to_id = [i] ->
    path_rel s from_id to_id (Raise "ShortestPathCommonEndNodesForbidden")
| path_found i j st :
    node_idxs s from_id = [i] -> node_idxs s to_id = [j] -> i <> j ->
    trail s i st j ->
    (forall st', trail s i st' j -> length st <= length st') ->
    path_rel s from_id to_id (Ret (nodes_at s (remove_dups (i :: map snd st))))
| path_none i j :
    node_idxs s from_id = [i] -> node_idxs s to_id = [j] -> i <> j ->
    (forall st, ~ trail s i st j) ->
    path_rel s from_id to_id (Ret []).

(** ** Connectors *)

(** *** String helpers (Python [str] methods used by the connectors) *)

Fixpoint str_prefix (p s : string) : bool :=
  match p, s with
  | EmptyString, _ => true
  | String c p', String d s' => bool_decide (c = d) && str_prefix p' s'
  | String _ _, EmptyString => false
  end.

(** [needle in hay] *)
Fixpoint contains (needle hay : string) : bool :=
  str_prefix needle hay ||
  match hay with
  | EmptyString => false
  | String _ hay' => contains needle hay'
  end.

(** [s.endswith(t)] *)
Definition endswith (s t : string) : bool :=
  (String.length t <=? String.length s)%nat &&
  String.eqb (String.substring (String.length s - String.length t)
                               (String.length t) s) t.

(** [s.split(':')] *)
Fixpoint split_colon_aux (cur : string) (s : string) : list string :=
  match s with
  | EmptyString => [cur]
  | String c s' =>
      if bool_decide (c = ":"%char) then cur :: split_colon_aux "" s'
      else split_colon_aux (cur +:+ String c EmptyString) s'
  end.

Definition split_colon (s : string) : list string := split_colon_aux "" s.

(** [s.split(':')[1]], raising [IndexError] when there is no colon. *)
Definition after_colon (s : string) : outcome string :=
  match split_colon s !! 1 with
  | Some x => Ret x
  | None => Raise "IndexError"
  end.

(** *** Python dicts as insertion-ordered association lists *)

(** [d[k] = v]: an existing key keeps its position. *)
Fixpoint dict_set {V} (d : list (string * V)) (k : string) (v : V) : list (string * V) :=
  match d with
  | [] => [(k, v)]
  | (k', v') :: d' =>
      if String.eqb k k' then (k, v) :: d' else (k', v') :: dict_set d' k v
  end.

Fixpoint dict_get {V} (d : list (string * V)) (k : string) : option V :=
  match d with
  | [] => None
  | (k', v') :: d' => if String.eqb k k' then Some v' else dict_get d' k
  end.

(** *** [TeamsConnector.resolve_ownership_targets] *)

Definition build_node_map (all_nodes : list Node) : list (string * string) :=
  fold_left (fun m n => dict_set (dict_set m (nname n) (nid n)) (nid n) (nid n))
            all_nodes [].

(** [target in node_name or node_name.endswith(target)] *)
Definition fuzzy_match (target node_name : string) : bool :=
  contains target node_name || endswith node_name target.

Definition resolve_one (node_map : list (string * string)) (edge : Edge)
    : outcome (list Edge) :=
  if String.eqb (etype edge) "owns" then
    let target := etarget edge in
    match dict_get node_map target with
    | Some t =>
        Ret [mkEdge (eid edge) (etype edge) (esource edge) t (eproperties edge)]
    | None =>
        match find (fun kv => fuzzy_match target kv.1) node_map with
        | Some (_, node_id) =>
            match after_colon (esource edge), after_colon node_id with
            | Ret a, Ret b =>
                Ret [mkEdge ("edge:" +:+ a +:+ "-owns-" +:+ b) (etype edge)
                            (esource edge) node_id (eproperties edge)]
            | Raise x, _ => Raise x
            | _, Raise x => Raise x
            end
        | None => Ret []
        end
    end
  else Ret [].

(** [self.edges] is the connector's (raw) edge list. *)
Definition resolve_ownership_targets (all_nodes : list Node) (edges : list Edge)
    : outcome (list Edge) :=
  let node_map := build_node_map all_nodes in
  fold_left (fun acc e =>
    match acc with
    | Ret done => match resolve_one node_map e with
                  | Ret new => Ret (done ++ new)
                  | Raise x => Raise x
                  end
    | Raise x => Raise x
    end) edges (Ret []).

(** *** [BaseConnector._add_edge]: first write wins within one connector. *)
Definition add_edge (edges : list Edge) (e : Edge) : list Edge :=
  if existsb (fun e' => String.eqb (eid e') (eid e)) edges then edges
  else edges ++ [e].

(** [s.lower()] on ASCII letters. *)
Definition lower_char (c : ascii) : ascii :=
  let n := nat_of_ascii c in
  if (65 <=? n)%nat && (n <=? 90)%nat then ascii_of_nat (n + 32) else c.

Fixpoint lower (s : string) : string :=
  match s with
  | EmptyString => EmptyString
  | String c s' => String (lower_char c) (lower s')
  end.

(** *** [re.search] for the connectors' single-group patterns

    Every pattern has the shape [lead(class+)stop] or [lead(class+)], where
    [class] is a negated character class.  The group is greedy and [stop]
    is outside [class], so at a given start the only candidate group is the
    maximal run of class characters; [re.search] tries the starts left to
    right. *)

Fixpoint span_not (excl : list ascii) (s : string) : string * string :=
  match s with
  | EmptyString => (EmptyString, EmptyString)
  | String c s' =>
      if bool_decide (c ∈ excl) then (EmptyString, s)
      else let '(run, rest) := span_not excl s' in (String c run, rest)
  end.

Fixpoint strip_prefix (p s : string) : option string :=
  match p, s with
  | EmptyString, _ => Some s
  | String c p', String d s' => if bool_decide (c = d) then strip_prefix p' s' else None
  | String _ _, EmptyString => None
  end.

Definition match_at (lead : string) (excl : list ascii) (stop : option (list ascii))
    (s : string) : option string :=
  match strip_prefix lead s with
  | Some rest =>
      let '(run, after) := span_not excl rest in
      match run with
      | EmptyString => None
      | _ =>
          match stop, after with
          | None, _ => Some run
          | Some cs, String c _ => if bool_decide (c ∈ cs) then Some run else None
          | Some _, EmptyString => None
          end
      end
  | None => None
  end.

Fixpoint re_search (lead : string) (excl : list ascii) (stop : option (list ascii))
    (s : string) : option string :=
  match match_at lead excl stop s with
  | Some g => Some g
  | None =>
      match s with
      | EmptyString => None
      | String _ s' => re_search lead excl stop s'
      end
  end.

Fixpoint first_some {A} (l : list (option A)) : option A :=
  match l with
  | [] => None
  | Some x :: _ => Some x
  | None :: l' => first_some l'
  end.

(** [DockerComposeConnector._extract_service_from_url] *)
Definition extract_service_from_url (url : string) : option string :=
  let excl := [":"%char; "/"%char; "@"%char] in
  first_some [re_search "://" excl (Some [":"%char]) url;
              re_search "://" excl (Some ["/"%char]) url;
              re_search "@" excl (Some [":"%char]) url;
              re_search "http://" excl None url].

(** [KubernetesConnector._extract_service_from_k8s_url] *)
Definition extract_service_from_k8s_url (url : string) : option string :=
  first_some [re_search "http://" ["."%char] (Some ["."%char]) url;
              re_search "://" [":"%char; "/"%char; "."%char]
                        (Some ["."%char; ":"%char]) url].

(** *** [DockerComposeConnector]

    A compose service's configuration, as far as edge derivation reads it:
    string-valued labels, [image] (default [""]), [depends_on] (its keys
    when it is a mapping) and [environment] (a mapping, or a list of
    [KEY=VALUE] strings). *)

Inductive environment :=
| EnvDict (kvs : list (string * string))
| EnvList (items : list string).

Record ServiceConfig := mkConfig {
  labels : list (string * string);
  image : string;
  depends_on : list string;
  env : environment
}.

Definition empty_config : ServiceConfig := mkConfig [] "" [] (EnvDict []).

Definition DATABASE_IMAGES : list string :=
  ["postgres"; "mysql"; "mariadb"; "mongodb"; "cassandra"].
Definition CACHE_IMAGES : list string := ["redis"; "memcached"].

Definition infer_node_type (name : string) (config : ServiceConfig) : string :=
  if bool_decide (dict_get (labels config) "type" = Some "database") then "database"
  else if bool_decide (dict_get (labels config) "type" = Some "cache") then "cache"
  else
    let img := lower (image config) in
    if existsb (fun db => contains db img) DATABASE_IMAGES then "database"
    else if existsb (fun c => contains c img) CACHE_IMAGES then "cache"
    else if existsb (fun x => contains x (lower name))
                    ["db"; "database"; "postgres"; "mysql"] then "database"
    else if existsb (fun x => contains x (lower name))
                    ["redis"; "cache"; "memcached"] then "cache"
    else "service".

Definition infer_edge_type (target_type : string) : string :=
  if String.eqb target_type "database" then "reads_from"
  else if String.eqb target_type "cache" then "uses"
  else "calls".

(** [item.split("=", 1)] on a string containing ["="]. *)
Fixpoint split_eq (s : string) : option (string * string) :=
  match s with
  | EmptyString => None
  | String c s' =>
      if bool_decide (c = "="%char) then Some (EmptyString, s')
      else match split_eq s' with
           | Some (k, v) => Some (String c k, v)
           | None => None
           end
  end.

Definition parse_environment (e : environment) : list (string * string) :=
  match e with
  | EnvDict kvs => kvs
  | EnvList items =>
      fold_left (fun acc item =>
        match split_eq item with
        | Some (k, v) => dict_set acc k v
        | None => acc
        end) items []
  end.

Definition services_get (services : list (string * ServiceConfig)) (n : string)
    : ServiceConfig :=
  default empty_config (dict_get services n).

Definition dep_edge (name source_id dep : string) (dep_type : string) : Edge :=
  let edge_type := infer_edge_type dep_type in
  mkEdge ("edge:" +:+ name +:+ "-" +:+ edge_type +:+ "-" +:+ dep) edge_type
         source_id (dep_type +:+ ":" +:+ dep) ∅.

(** The edges one service contributes, added to [edges] in source order. *)
Definition compose_service_edges (services : list (string * ServiceConfig))
    (edges : list Edge) (nc : string * ServiceConfig) : list Edge :=
  let '(name, config) := nc in
  let source_id := infer_node_type name config +:+ ":" +:+ name in
  let edges1 :=
    fold_left (fun acc dep =>
      add_edge acc (dep_edge name source_id dep
                             (infer_node_type dep (services_get services dep))))
      (depends_on config) edges in
  fold_left (fun acc kv =>
    let '(key, value) := kv in
    if contains "_URL" key && negb (String.eqb value "") then
      match extract_service_from_url value with
      | Some target_name =>
          if String.eqb target_name "" then acc
          else match dict_get services target_name with
          | Some target_config =>
              let target_type := infer_node_type target_name target_config in
              if String.eqb (target_type +:+ ":" +:+ target_name) source_id then acc
              else add_edge acc (dep_edge name source_id target_name target_type)
          | None => acc
          end
      | None => acc
      end
    else acc) (parse_environment (env config)) edges1.

(** The edge list returned by [DockerComposeConnector.parse]. *)
Definition compose_edges (services : list (string * ServiceConfig)) : list Edge :=
  fold_left (compose_service_edges services) services [].

(** *** [KubernetesConnector]: edges of [_parse_deployment]

    A manifest document, as far as edge derivation reads it: a Deployment
    with its name and the [env] entries of its first container, or any
    other document. *)

Inductive K8sDoc :=
| Deployment (name : string) (container_env : list (string * string))
| OtherDoc.

Definition deployment_edges (edges : list Edge) (name : string)
    (container_env : list (string * string)) : list Edge :=
  let env_vars :=
    fold_left (fun acc kv =>
      let '(n, v) := kv in
      if negb (String.eqb n "") && negb (String.eqb v "") then dict_set acc n v
      else acc) container_env [] in
  fold_left (fun acc kv =>
    let '(key, value) := kv in
    if contains "_URL" key && negb (String.eqb value "") then
      match extract_service_from_k8s_url value with
      | Some target_name =>
          if negb (String.eqb target_name "") && negb (String.eqb target_name name)
          then add_edge acc
                 (mkEdge ("edge:" +:+ name +:+ "-calls-" +:+ target_name) "calls"
                         ("service:" +:+ name) ("service:" +:+ target_name)
                         {["via" := Some (VStr "k8s_env")]})
          else acc
      | None => acc
      end
    else acc) env_vars edges.

(** The edge list returned by [KubernetesConnector.parse]. *)
Definition k8s_edges (docs : list K8sDoc) : list Edge :=
  fold_left (fun acc d =>
    match d with
    | Deployment name cenv =>
        if String.eqb name "" then acc else deployment_edges acc name cenv
    | OtherDoc => acc
    end) docs [].

(** ** Further storage operations ([graph/storage.py]) *)

(** *** [GraphStorage.delete_node]
<<
    MATCH (n {id: $id}) DETACH DELETE n RETURN count(n) as deleted
>>
    DETACH DELETE removes the matched nodes together with every
    relationship attached to them.  The remaining nodes keep their order,
    so the identity (position) of a node moves down past the deleted ones.
    The aggregate always yields one row, so [record["deleted"] > 0] is
    evaluated. *)

Definition deleted_at (s : store) (i : string) (k : nat) : bool :=
  match snodes s !! k with Some n => has_id n i | None => false end.

(** The new identity of the surviving node at position [k]. *)
Definition shift (s : store) (i : string) (k : nat) : nat :=
  length (filter (fun n => has_id n i = false) (take k (snodes s))).

Definition delete_node (s : store) (node_id : string) : store * bool :=
  (Store (filter (fun n => has_id n node_id = false) (snodes s))
         (map (fun r => GRel (shift s node_id (rsrc r)) (shift s node_id (rtgt r))
                             (rprops r))
              (filter (fun r => deleted_at s node_id (rsrc r)
                                || deleted_at s node_id (rtgt r) = false)
                      (srels s))),
   bool_decide (0 < length (node_idxs s node_id))).

(** *** [GraphStorage.get_all_edges]
<<
    MATCH (source)-[r:EDGE]->(target)
    RETURN r.id as id, r.type as type, source.id as source,
           target.id as target, r as properties
>>
    followed by dropping the keys [id] and [type] from the properties.
    Every relationship of the store has label [EDGE] (the only one
    [upsert_edge] creates). *)

Record EdgeRecord := mkEdgeRecord {
  rec_id : option value;
  rec_type : option value;
  rec_source : option value;
  rec_target : option value;
  rec_properties : props
}.

Definition get_all_edges (s : store) : list EdgeRecord :=
  omap (fun r =>
    match snodes s !! rsrc r, snodes s !! rtgt r with
    | Some a, Some b =>
        Some (mkEdgeRecord (rprops r !! "id") (rprops r !! "type")
                           (a !! "id") (b !! "id")
                           (delete "type" (delete "id" (rprops r))))
    | _, _ => None
    end) (srels s).

(** *** [GraphStorage.get_nodes], as every caller uses it ([filters] is
    never passed): [MATCH (n {type: $type}) RETURN n] when [node_type] is
    truthy, [MATCH (n) RETURN n] otherwise. *)
Definition get_nodes (s : store) (node_type : option string) : list props :=
  match node_type with
  | Some t =>
      if String.eqb t "" then snodes s
      else filter (fun n => n !! "type" = Some (VStr t)) (snodes s)
  | None => snodes s
  end.

(** ** Further queries ([graph/query.py]) *)

(** *** [QueryEngine.get_graph_stats]
<<
    MATCH (n) RETURN count(n) as count
    MATCH ()-[r]->() RETURN count(r) as count
    MATCH (n) RETURN DISTINCT n.type as type, count(n) as count
>>
    The last query groups the nodes by their [type] (null for nodes
    without one; Cypher keeps [1] and [true] apart); the order of the rows
    is the engine's, and the model lists them in store order.  The dict
    comprehension [{r["type"]: r["count"] for r in ...}] then assigns the
    rows in turn, and a Python dict merges keys that compare equal:
    [1 == True] and [0 == False].  A later row equal to an earlier key
    overwrites its count and keeps the first key. *)

Record GraphStats := mkStats {
  total_nodes : nat;
  total_edges : nat;
  nodes_by_type : list (option value * nat)
}.

(** Python [==] on the key values a node's [type] can hold. *)
Definition py_key_eq (a b : option value) : bool :=
  match a, b with
  | None, None => true
  | Some (VStr x), Some (VStr y) => String.eqb x y
  | Some (VInt x), Some (VInt y) => Z.eqb x y
  | Some (VBool x), Some (VBool y) => Bool.eqb x y
  | Some (VInt z), Some (VBool b) | Some (VBool b), Some (VInt z) =>
      Z.eqb z (if b then 1 else 0)
  | _, _ => false
  end.

(** [d[k] = v] on a dict kept in insertion order. *)
Fixpoint py_dict_assign {V : Type} (d : list (option value * V)) (k : option value) (v : V)
    : list (option value * V) :=
  match d with
  | [] => [(k, v)]
  | (k', v') :: d' =>
      if py_key_eq k k' then (k', v) :: d' else (k', v') :: py_dict_assign d' k v
  end.

(** No two keys compare equal in Python. *)
Fixpoint py_distinct (ks : list (option value)) : bool :=
  match ks with
  | [] => true
  | k :: ks' => forallb (fun k' => negb (py_key_eq k k')) ks' && py_distinct ks'
  end.

(** The rows of the third query. *)
Definition type_count_rows (s : store) : list (option value * nat) :=
  map (fun t => (t, length (filter (fun n => n !! "type" = t) (snodes s))))
      (remove_dups (map (fun n => n !! "type") (snodes s))).

Definition get_graph_stats (s : store) : GraphStats :=
  mkStats (length (snodes s)) (length (srels s))
    (fold_left (fun d r => py_dict_assign d r.1 r.2) (type_count_rows s) []).

(** *** [QueryEngine.search_nodes]
<<
    MATCH (n)
    WHERE toLower(n.name) CONTAINS toLower($query_text)
       OR toLower(n.id) CONTAINS toLower($query_text)
    RETURN n
>>
    [toLower] of null is null; Neo4j rejects [toLower] of a number or a
    boolean.  [OR] is three-valued and a row is kept when the condition is
    true; an error in one operand is held back when the other operand is
    true, and raised otherwise.  Case folding is modelled on ASCII
    letters. *)

Definition lower_contains (x : option value) (q : string) : outcome (option bool) :=
  match x with
  | None => Ret None
  | Some (VStr v) => Ret (Some (contains (lower q) (lower v)))
  | Some _ => Raise "TypeError"
  end.

Definition cypher_or (a b : option bool) : option bool :=
  match a, b with
  | Some true, _ | _, Some true => Some true
  | Some false, Some false => Some false
  | _, _ => None
  end.

(** [OR] over operands that may fail. *)
Definition cypher_or_err (a b : outcome (option bool)) : outcome (option bool) :=
  match a, b with
  | Ret (Some true), _ | _, Ret (Some true) => Ret (Some true)
  | Raise x, _ => Raise x
  | _, Raise x => Raise x
  | Ret a', Ret b' => Ret (cypher_or a' b')
  end.

Fixpoint search_rows (ns : list props) (q : string) : outcome (list props) :=
  match ns with
  | [] => Ret []
  | n :: ns' =>
      match cypher_or_err (lower_contains (n !! "name") q) (lower_contains (n !! "id") q) with
      | Ret c =>
          match search_rows ns' q with
          | Ret l => Ret (if bool_decide (c = Some true) then n :: l else l)
          | Raise x => Raise x
          end
      | Raise x => Raise x
      end
  end.

Definition search_nodes (s : store) (query_text : string) : outcome (list props) :=
  search_rows (snodes s) query_text.

(** *** [QueryEngine.get_nodes_owned_by_team]
<<
    MATCH (team {id: $team_id})-[r:EDGE {type: 'owns'}]->(owned)
    RETURN owned
>>
    with [team_id = f"team:{team_name}"]. *)
Definition get_nodes_owned_by_team (s : store) (team_name : string) : list props :=
  omap (fun r =>
    match snodes s !! rsrc r, snodes s !! rtgt r with
    | Some team, Some owned =>
        if bool_decide (team !! "id" = Some (VStr ("team:" +:+ team_name))
                        /\ rprops r !! "type" = Some (VStr "owns"))
        then Some owned else None
    | _, _ => None
    end) (srels s).

(** ** [IntentParser._resolve_node_id] ([chat/intent.py]) *)

(** Python truthiness of the dict returned by [get_node] and of a value. *)
Definition node_truthy (o : option props) : bool :=
  match o with Some n => negb (bool_decide (n = ∅)) | None => false end.

Definition value_truthy (v : option value) : bool :=
  match v with
  | None => false
  | Some (VStr x) => negb (String.eqb x "")
  | Some (VInt z) => negb (Z.eqb z 0)
  | Some (VBool b) => b
  end.

(** The result is [results[0].get("id")] in the last case, so any value
    (or [None]) the first search hit holds under [id]. *)
Definition resolve_node_id (s : store) (identifier : string) : outcome (option value) :=
  if contains ":" identifier && node_truthy (get_node s identifier)
  then Ret (Some (VStr identifier))
  else
    match find (fun p => node_truthy (get_node s (p +:+ identifier)))
               ["service:"; "database:"; "cache:"; "team:"] with
    | Some p => Ret (Some (VStr (p +:+ identifier)))
    | None =>
        match search_nodes s identifier with
        | Ret (n :: _) => Ret (n !! "id")
        | Ret [] => Ret None
        | Raise x => Raise x
        end
    end.

(** ** Connector parsing *)

(** *** [BaseConnector._add_node]: the first node listed under an id is
    kept; a later one only merges its properties into it
    ([existing.properties.update(node.properties)], where a [None] value
    is stored like any other). *)
Fixpoint merge_into_first (nodes : list Node) (nd : Node) : list Node :=
  match nodes with
  | [] => []
  | n :: ns =>
      if String.eqb (nid n) (nid nd)
      then mkNode (nid n) (ntype n) (nname n) (nproperties nd ∪ nproperties n) :: ns
      else n :: merge_into_first ns nd
  end.

Definition add_node (nodes : list Node) (nd : Node) : list Node :=
  if existsb (fun n => String.eqb (nid n) (nid nd)) nodes
  then merge_into_first nodes nd
  else nodes ++ [nd].

(** *** [TeamsConnector.parse], from the loaded YAML on: a team entry with
    its [name] ([None] when absent), the three contact fields and the
    [owns] list. *)
Record TeamEntry := mkTeam {
  team_name : option string;
  team_lead : option value;
  team_slack_channel : option value;
  team_pagerduty_schedule : option value;
  team_owns : list string
}.

Definition team_node (name : string) (t : TeamEntry) : Node :=
  mkNode ("team:" +:+ name) "team" name
    (<["pagerduty_schedule" := team_pagerduty_schedule t]>
      (<["slack_channel" := team_slack_channel t]>
        {["lead" := team_lead t]})).

Definition owns_edge (name item : string) : Edge :=
  mkEdge ("edge:" +:+ name +:+ "-owns-" +:+ item) "owns" ("team:" +:+ name) item ∅.

Definition teams_step (acc : list Node * list Edge) (t : TeamEntry)
    : list Node * list Edge :=
  let '(nodes, edges) := acc in
  match team_name t with
  | None => acc
  | Some name =>
      if String.eqb name "" then acc
      else (add_node nodes (team_node name t),
            fold_left (fun es item => add_edge es (owns_edge name item))
                      (team_owns t) edges)
  end.

Definition teams_parse (teams : list TeamEntry) : list Node * list Edge :=
  fold_left teams_step teams ([], []).

(** *** [KubernetesConnector.parse], from the loaded documents on

    A Deployment with its [metadata.name] ([""] when absent or empty),
    [metadata.namespace] and [spec.replicas] ([None] when the key is
    absent, then the defaults ["default"] and [1] apply), the [team]
    label and its containers; a container with its image, the four
    resource entries and its [env] list (an absent or empty name or value
    as [""]).  A Service with its name and the [port] of its first port. *)

Record K8sContainer := mkContainer {
  k_image : option value;
  k_limit_cpu : option value;
  k_limit_memory : option value;
  k_request_cpu : option value;
  k_request_memory : option value;
  k_env : list (string * string)
}.

Record K8sDeployment := mkDeployment {
  k_name : string;
  k_namespace : option value;
  k_team : option value;
  k_replicas : option value;
  k_containers : list K8sContainer
}.

(** A document of the stream, as [parse] dispatches it: a Deployment, a
    Service with a non-empty name and the [port] of its first port entry,
    a Deployment or Service document on which [_parse_deployment] or
    [_parse_service] raises ([exn]; e.g. a named Service with
    [spec: null], or whose first port entry is not a mapping, raises
    [AttributeError]), or a document [parse] skips. *)
Inductive K8sManifest :=
| KDeployment (d : K8sDeployment)
| KService (name : string) (port : option value)
| KRaises (exn : string)
| KOther.

Definition k_namespace_or_default (d : K8sDeployment) : value :=
  default (VStr "default") (k_namespace d).

Definition k_replicas_or_default (d : K8sDeployment) : value :=
  default (VInt 1) (k_replicas d).

(** [if v: info[k] = v] *)
Definition set_if_truthy (k : string) (v : option value) (m : pyprops) : pyprops :=
  if value_truthy v then <[k := v]> m else m.

Definition container_info (d : K8sDeployment) (c : K8sContainer) : pyprops :=
  set_if_truthy "resource_request_memory" (k_request_memory c)
   (set_if_truthy "resource_request_cpu" (k_request_cpu c)
    (set_if_truthy "resource_limit_memory" (k_limit_memory c)
     (set_if_truthy "resource_limit_cpu" (k_limit_cpu c)
      (<["namespace" := Some (k_namespace_or_default d)]>
       (<["replicas" := Some (k_replicas_or_default d)]>
        {["image" := k_image c]}))))).

(** [{"team": ..., "k8s_namespace": ..., "k8s_replicas": ..., **container_info}] *)
Definition deployment_node (d : K8sDeployment) : Node :=
  let info := match k_containers d with c :: _ => container_info d c | [] => ∅ end in
  mkNode ("service:" +:+ k_name d) "service" (k_name d)
    (info ∪ <["k8s_replicas" := Some (k_replicas_or_default d)]>
              (<["k8s_namespace" := Some (k_namespace_or_default d)]>
                {["team" := k_team d]})).

Definition deployment_env (d : K8sDeployment) : list (string * string) :=
  match k_containers d with c :: _ => k_env c | [] => [] end.

(** [_parse_service]: the first node with that name gets [k8s_port] (when
    the port is truthy) and [k8s_service = True]. *)
Fixpoint mark_service (nodes : list Node) (name : string) (port : option value)
    : list Node :=
  match nodes with
  | [] => []
  | n :: ns =>
      if String.eqb (nname n) name
      then mkNode (nid n) (ntype n) (nname n)
             (<["k8s_service" := Some (VBool true)]>
               (set_if_truthy "k8s_port" port (nproperties n))) :: ns
      else n :: mark_service ns name port
  end.

Definition k8s_step (acc : list Node * list Edge) (doc : K8sManifest)
    : outcome (list Node * list Edge) :=
  let '(nodes, edges) := acc in
  match doc with
  | KDeployment d =>
      if String.eqb (k_name d) "" then Ret acc
      else Ret (add_node nodes (deployment_node d),
                deployment_edges edges (k_name d) (deployment_env d))
  | KService name port =>
      if String.eqb name "" then Ret acc else Ret (mark_service nodes name port, edges)
  | KRaises x => Raise x
  | KOther => Ret acc
  end.

(** The loop of [parse]; an exception leaves [parse]. *)
Definition k8s_parse (docs : list K8sManifest) : outcome (list Node * list Edge) :=
  fold_left (fun acc doc => match acc with Ret a => k8s_step a doc | Raise x => Raise x end)
    docs (Ret ([], [])).

(** *** [DockerComposeConnector.parse]: the node loop

    A compose service as the node loop reads it: its name, its
    configuration and its [ports] list, whose entries are strings,
    integers or anything else.  Python's [int()] on a string is left
    abstract. *)

Inductive port_entry :=
| PortStr (p : string)
| PortInt (z : Z)
| PortOther.

Record ComposeService := mkComposeService {
  cs_name : string;
  cs_config : ServiceConfig;
  cs_ports : list port_entry
}.

Section ComposeNodes.
Variable py_int : string -> outcome Z.

Definition port_property (ports : list port_entry) (m : pyprops) : outcome pyprops :=
  match ports with
  | PortStr p :: _ =>
      if contains ":" p then
        match after_colon p with
        | Ret x => match py_int x with
                   | Ret z => Ret (<["port" := Some (VInt z)]> m)
                   | Raise e => Raise e
                   end
        | Raise e => Raise e
        end
      else Ret m
  | PortInt z :: _ => Ret (<["port" := Some (VInt z)]> m)
  | _ => Ret m
  end.

Definition compose_node (c : ComposeService) : outcome Node :=
  let name := cs_name c in
  let config := cs_config c in
  let node_type := infer_node_type name config in
  let lbl := labels config in
  let p0 : pyprops :=
    <["oncall" := option_map VStr (dict_get lbl "oncall")]>
      {["team" := option_map VStr (dict_get lbl "team")]} in
  match port_property (cs_ports c) p0 with
  | Ret p1 =>
      let p2 := fold_left (fun m kv =>
                  if bool_decide (kv.1 ∈ ["team"; "oncall"]) then m
                  else <[kv.1 := Some (VStr kv.2)]> m) lbl p1 in
      Ret (mkNode (node_type +:+ ":" +:+ name) node_type name
                  (filter (fun kv => is_Some kv.2) p2))
  | Raise e => Raise e
  end.

Definition compose_nodes (svcs : list ComposeService) : outcome (list Node) :=
  fold_left (fun acc c =>
    match acc with
    | Ret nodes => match compose_node c with
                   | Ret nd => Ret (add_node nodes nd)
                   | Raise e => Raise e
                   end
    | Raise e => Raise e
    end) svcs (Ret []).

End ComposeNodes.

(** The [services] mapping both loops read. *)
Definition compose_services (svcs : list ComposeService)
    : list (string * ServiceConfig) :=
  map (fun c => (cs_name c, cs_config c)) svcs.


(** [DockerComposeConnector.parse]: the node loop, then the edge loop; an
    exception of the node loop ends the parse. *)
Definition compose_parse (py_int : string -> outcome Z) (svcs : list ComposeService)
    : outcome (list Node * list Edge) :=
  match compose_nodes py_int svcs with
  | Ret nodes => Ret (nodes, compose_edges (compose_services svcs))
  | Raise e => Raise e
  end.

(** * Fixtures and auxiliary definitions *)

(** A compose service whose labels include [id] gives a node whose
    properties carry that key. *)
Definition labelled_id_node : Node :=
  mkNode "service:api" "service" "api" {["id" := Some (VStr "api-v2")]}.

Definition node_a : Node := mkNode "service:a" "service" "a" ∅.

Definition node_a_as_db : Node := mkNode "service:a" "database" "a-db" ∅.

Definition node_b : Node := mkNode "service:b" "service" "b" ∅.

Definition store_ab : store := upsert_node (upsert_node empty_store node_a) node_b.

Definition edge_ab_calls : Edge := mkEdge "edge:a-b" "calls" "service:a" "service:b" ∅.

Definition edge_ab_uses : Edge :=
  mkEdge "edge:a-b" "uses" "service:a" "service:b" {["weight" := Some (VInt 2)]}.

Definition team_payments : Node :=
  mkNode "team:payments" "team" "payments" {["lead" := None]}.

Definition raw_owns_edge : Edge :=
  mkEdge "edge:payments-owns-payment-service" "owns" "team:payments"
         "payment-service" ∅.

Definition store_with_team : store :=
  upsert_node (upsert_node store_ab team_payments)
              (mkNode "service:payment-service" "service" "payment-service" ∅).

Definition directed (d : dir) : Prop := d = Fwd \/ d = Bwd.

Definition dir_of (fwd : bool) : dir := if fwd then Fwd else Bwd.

Definition svc (nm : string) : Node := mkNode ("service:" +:+ nm) "service" nm ∅.

Definition plain_edge (i ty src tgt : string) : Edge := mkEdge i ty src tgt ∅.

(** The documented scenario: services A, B, C with [calls] edges
    A -> B -> C and team T owning A, loaded through the store operations. *)
Definition fixture_store : store :=
  bulk_upsert_edges
    (bulk_upsert_nodes empty_store
       [svc "A"; svc "B"; svc "C"; mkNode "team:T" "team" "T" ∅])
    [plain_edge "edge:A-calls-B" "calls" "service:A" "service:B";
     plain_edge "edge:B-calls-C" "calls" "service:B" "service:C";
     plain_edge "edge:T-owns-A" "owns" "team:T" "service:A"].

(** A two-service cycle a -> b -> a. *)
Definition cycle_store : store :=
  bulk_upsert_edges (bulk_upsert_nodes empty_store [svc "a"; svc "b"])
    [plain_edge "edge:a-calls-b" "calls" "service:a" "service:b";
     plain_edge "edge:b-calls-a" "calls" "service:b" "service:a"].

(** Relationship [r] of the store is an [owns] edge from team node [t] to
    a node with id [x]. *)
Definition owns_link (s : store) (x : string) (r : grel) (t : props) : Prop :=
  r ∈ srels s /\ snodes s !! rsrc r = Some t /\
  t !! "type" = Some (VStr "team") /\ rprops r !! "type" = Some (VStr "owns") /\
  exists tg, snodes s !! rtgt r = Some tg /\ tg !! "id" = Some (VStr x).

(** Two teams both owning service A. *)
Definition two_owner_store : store :=
  bulk_upsert_edges
    (bulk_upsert_nodes empty_store
       [svc "A"; mkNode "team:T1" "team" "T1" ∅; mkNode "team:T2" "team" "T2" ∅])
    [plain_edge "edge:T1-owns-A" "owns" "team:T1" "service:A";
     plain_edge "edge:T2-owns-A" "owns" "team:T2" "service:A"].

(** A diamond A -> B -> D, A -> C -> D: two shortest paths from A to D. *)
Definition diamond_store : store :=
  bulk_upsert_edges
    (bulk_upsert_nodes empty_store [svc "A"; svc "B"; svc "C"; svc "D"])
    [plain_edge "edge:A-calls-B" "calls" "service:A" "service:B";
     plain_edge "edge:A-calls-C" "calls" "service:A" "service:C";
     plain_edge "edge:B-calls-D" "calls" "service:B" "service:D";
     plain_edge "edge:C-calls-D" "calls" "service:C" "service:D"].

(** The keys written into [node_map], in the order they are written. *)
Definition node_keys (ns : list Node) : list string :=
  flat_map (fun n => [nname n; nid n]) ns.

(** The id of the last node whose name or id is [k]. *)
Fixpoint key_owner (ns : list Node) (k : string) : option string :=
  match ns with
  | [] => None
  | n :: ns' =>
      match key_owner ns' k with
      | Some v => Some v
      | None => if String.eqb k (nname n) || String.eqb k (nid n)
                then Some (nid n) else None
      end
  end.

Definition auth_nodes : list Node := [svc "zeta-auth"; svc "alpha-auth"].

Definition owns_auth_edge : Edge :=
  plain_edge "edge:platform-owns-auth" "owns" "team:platform" "auth".

Definition owns_ghost_edge : Edge :=
  plain_edge "edge:platform-owns-ghost" "owns" "team:platform" "ghost".

(** The edge type follows the inferred type of the target named in it. *)
Definition typed_by_target (services : list (string * ServiceConfig)) (e : Edge) : Prop :=
  exists tname,
    etarget e = infer_node_type tname (services_get services tname) +:+ ":" +:+ tname /\
    etype e = infer_edge_type (infer_node_type tname (services_get services tname)).

Definition orders_docs : list K8sDoc :=
  [Deployment "orders-db" [];
   Deployment "api" [("DB_URL", "postgres://orders-db:5432/app")]].

Definition orders_services : list (string * ServiceConfig) :=
  [("orders-db", mkConfig [] "postgres:15" [] (EnvDict []));
   ("api", mkConfig [] "api:latest" ["orders-db"] (EnvDict []))].

Definition orders_compose_edge : Edge :=
  dep_edge "api" "service:api" "orders-db" "database".

Definition orders_k8s_edge : Edge :=
  mkEdge "edge:api-calls-orders-db" "calls" "service:api" "service:orders-db"
         {["via" := Some (VStr "k8s_env")]}.

(** ** Definitions used by the further properties *)

(** The node [_add_node] stores when [nd] arrives under the id of [n]. *)
Definition merged_node (n nd : Node) : Node :=
  mkNode (nid n) (ntype n) (nname n) (nproperties nd ∪ nproperties n).

(** What the teams loop keeps true of its node and edge lists. *)
Definition teams_inv (acc : list Node * list Edge) : Prop :=
  NoDup (map nid acc.1) /\ NoDup (map eid acc.2) /\
  Forall (fun n => ntype n = "team") acc.1 /\
  Forall (fun e => etype e = "owns" /\ esource e ∈ map nid acc.1) acc.2.

(** What the manifest loop keeps true of its node and edge lists. *)
Definition k8s_inv (acc : list Node * list Edge) : Prop :=
  NoDup (map nid acc.1) /\ NoDup (map eid acc.2) /\
  Forall (fun n => ntype n = "service") acc.1 /\
  Forall (fun e => etype e = "calls" /\ esource e ∈ map nid acc.1 /\
                   esource e <> etarget e) acc.2.

(** The id of the node the compose node loop builds for a service. *)
Definition compose_source_id (nc : string * ServiceConfig) : string :=
  infer_node_type nc.1 nc.2 +:+ ":" +:+ nc.1.

(** The value of the last [KEY=VALUE] item whose key is [k]. *)
Fixpoint env_last (items : list string) (k : string) : option string :=
  match items with
  | [] => None
  | it :: its =>
      match env_last its k with
      | Some v => Some v
      | None =>
          match split_eq it with
          | Some (k', v) => if String.eqb k k' then Some v else None
          | None => None
          end
      end
  end.

(** A value [toLower] accepts: a string or null. *)
Definition str_or_null (v : option value) : bool :=
  match v with None | Some (VStr _) => true | Some _ => false end.

(** A node whose [name] and [id] [toLower] accepts. *)
Definition search_safe (n : props) : bool :=
  str_or_null (n !! "name") && str_or_null (n !! "id").

(** A string [name] or [id] of the node contains the query: the [WHERE]
    condition of [search_nodes] is true. *)
Definition search_hit (q : string) (n : props) : bool :=
  match n !! "name" with Some (VStr v) => contains (lower q) (lower v) | _ => false end ||
  match n !! "id" with Some (VStr v) => contains (lower q) (lower v) | _ => false end.

(** Every relationship has both end nodes in the store. *)
Definition store_wf (s : store) : Prop :=
  Forall (fun r => rsrc r < length (snodes s) /\ rtgt r < length (snodes s)) (srels s).

(** The stores reachable from the empty one through the storage API. *)
Inductive built : store -> Prop :=
| built_empty : built empty_store
| built_upsert_node s nd : built s -> built (upsert_node s nd)
| built_upsert_edge s e : built s -> built (upsert_edge s e)
| built_delete_node s i : built s -> built (delete_node s i).1.

(** Concrete inputs: a service, a database, a team, a [calls] and an
    [owns] edge. *)
Definition w_api : Node := mkNode "service:api" "service" "api" ∅.

Definition w_db : Node := mkNode "database:db" "database" "db" ∅.

Definition w_team : Node := mkNode "team:platform" "team" "platform" ∅.

Definition w_calls : Edge := mkEdge "edge:api-calls-db" "calls" "service:api" "database:db" ∅.

Definition w_owns : Edge :=
  mkEdge "edge:platform-owns-api" "owns" "team:platform" "service:api" ∅.

(** A store built through the storage API: three nodes, two edges. *)
Definition w_store : store :=
  upsert_edge (upsert_edge (upsert_node (upsert_node (upsert_node empty_store
    w_api) w_db) w_team) w_calls) w_owns.

(** A node whose [name] is the number 5. *)
Definition w_num_name_props : props := {["name" := VInt 5%Z]} ∪ {["id" := VStr "service:api"]}.

Definition w_num_name : store := Store [w_num_name_props] [].

(** Three nodes typed [1], [true] and ["service"]. *)
Definition w_mixed_types : store :=
  Store [{["type" := VInt 1%Z]}; {["type" := VBool true]}; {["type" := VStr "service"]}] [].

(** Stored nodes and a blast radius read off [w_store]. *)
Definition w_api_props : props :=
  Eval vm_compute in default ∅ (get_node w_store "service:api").

Definition w_team_props : props :=
  Eval vm_compute in default ∅ (get_node w_store "team:platform").


(** The service again, under a new name and with a team. *)
Definition w_api2 : Node := mkNode "service:api" "service" "api-gateway" {["team" := Some (VStr "platform")]}.

(** A one-container Deployment whose env points at [target]. *)
Definition w_deploy (name target : string) : K8sDeployment :=
  mkDeployment name None (Some (VStr "commerce")) None
    [mkContainer (Some (VStr (name +:+ ":1.0"))) None None None None
       [("UPSTREAM_URL", "http://" +:+ target +:+ ":8080")]].

(** Two Deployments calling each other's hosts, and what [parse] returns. *)
Definition w_k8s_docs : list K8sManifest :=
  [KDeployment (w_deploy "orders" "payments"); KOther;
   KDeployment (w_deploy "payments" "ledger")].

Definition w_k8s_nodes : list Node :=
  Eval vm_compute in
    match k8s_parse w_k8s_docs with Ret (n, _) => n | Raise _ => [] end.

Definition w_k8s_edges : list Edge :=
  Eval vm_compute in
    match k8s_parse w_k8s_docs with Ret (_, e) => e | Raise _ => [] end.

(** An [int()] that always succeeds, and a two-service compose file. *)
Definition w_py_int (_ : string) : outcome Z := Ret 8080%Z.

Definition w_svcs : list ComposeService :=
  [mkComposeService "orders"
     (mkConfig [("team", "commerce")] "orders:1" ["orders-db"]
        (EnvList ["DATABASE_URL=postgres://orders-db:5432/app"]))
     [PortStr "8080:8080"];
   mkComposeService "orders-db" (mkConfig [] "postgres:15" [] (EnvDict [])) []].

(** The result of parsing [w_svcs]. *)
Definition w_compose_nodes : list Node :=
  Eval vm_compute in
    match compose_parse w_py_int w_svcs with Ret (n, _) => n | Raise _ => [] end.

Definition w_compose_edges : list Edge :=
  Eval vm_compute in
    match compose_parse w_py_int w_svcs with Ret (_, e) => e | Raise _ => [] end.

(** Proves a decidable proposition on concrete data by evaluation. *)
Ltac decide_by_eval := refine (bool_decide_unpack _ _); vm_compute; first [exact I | reflexivity].

(** Case split on the [name] and [id] of a node and on the [contains] tests. *)
Ltac search_cases n :=
  destruct (n !! "name") as [[?v|?|?]|]; destruct (n !! "id") as [[?w|?|?]|];
  unfold lower_contains, cypher_or_err, cypher_or in *;
  repeat match goal with
         | |- context [contains ?a ?b] => destruct (contains a b)
         | H : context [contains ?a ?b] |- _ => destruct (contains a b)
         end.

(** * Proofs *)

(** ** Property maps and the store *)

Lemma lookup_set_plus (m : props) (p : pyprops) k :
  set_plus m p !! k = match p !! k with Some ov => ov | None => m !! k end.
Proof.
  unfold set_plus. rewrite lookup_merge.
  destruct (m !! k), (p !! k) as [[]|]; reflexivity.
Qed.

Lemma lookup_set_node nd n k :
  set_node nd n !! k =
  match nproperties nd !! k with
  | Some ov => ov
  | None =>
      if bool_decide (k = "name") then Some (VStr (nname nd))
      else if bool_decide (k = "type") then Some (VStr (ntype nd))
      else n !! k
  end.
Proof.
  unfold set_node. rewrite lookup_set_plus.
  destruct (nproperties nd !! k); [reflexivity|].
  case_bool_decide; [subst; by rewrite lookup_insert_eq|].
  rewrite lookup_insert_ne by congruence.
  case_bool_decide; [subst; by rewrite lookup_insert_eq|].
  by rewrite lookup_insert_ne by congruence.
Qed.

Lemma set_node_idem nd n : set_node nd (set_node nd n) = set_node nd n.
Proof.
  apply map_eq. intros k. rewrite !lookup_set_node.
  destruct (nproperties nd !! k); [reflexivity|].
  repeat case_bool_decide; congruence.
Qed.

Lemma lookup_map_list {A B} (f : A -> B) (l : list A) i :
  map f l !! i = f <$> (l !! i).
Proof. revert i. induction l; intros [|i]; simpl; auto. Qed.

Lemma elem_of_node_idxs s x j :
  j ∈ node_idxs s x <-> exists n, snodes s !! j = Some n /\ has_id n x = true.
Proof.
  unfold node_idxs. rewrite list_elem_of_fmap. split.
  - intros [[j' n] [-> Hin]]. apply list_elem_of_filter in Hin as [Hid Hin].
    apply elem_of_lookup_imap in Hin as (i & y & Heq & Hl).
    inversion Heq; subst. simpl in *. eauto.
  - intros (n & Hl & Hid). exists (j, n). split; [done|].
    apply list_elem_of_filter. split; [done|].
    by apply (elem_of_lookup_imap_2 pair).
Qed.

Lemma node_idxs_nil s x :
  (forall n, n ∈ snodes s -> has_id n x = false) -> node_idxs s x = [].
Proof.
  intros Hno. destruct (node_idxs s x) as [|j l] eqn:E; [done|].
  assert (Hj : j ∈ node_idxs s x) by (rewrite E; left).
  apply elem_of_node_idxs in Hj as (n & Hl & Hid).
  rewrite Hno in Hid; [discriminate|]. by eapply list_elem_of_lookup_2.
Qed.

Lemma forall_has_id_false (ns : list props) (x : string) :
  forallb (fun n => negb (has_id n x)) ns = true ->
  forall n, n ∈ ns -> has_id n x = false.
Proof.
  intros Hb n Hn. rewrite forallb_forall in Hb.
  apply list_elem_of_In in Hn. specialize (Hb n Hn).
  destruct (has_id n x); [discriminate|reflexivity].
Qed.

Lemma has_id_set_node nd n :
  (nproperties nd !! "id" = None \/
   nproperties nd !! "id" = Some (Some (VStr (nid nd)))) ->
  has_id n (nid nd) = true -> has_id (set_node nd n) (nid nd) = true.
Proof.
  unfold has_id. intros Hp Hn. apply bool_decide_eq_true in Hn.
  apply bool_decide_eq_true. rewrite lookup_set_node.
  destruct Hp as [-> | ->]; [|reflexivity].
  repeat (case_bool_decide; [congruence|]). exact Hn.
Qed.

Lemma has_id_fresh nd :
  (nproperties nd !! "id" = None \/
   nproperties nd !! "id" = Some (Some (VStr (nid nd)))) ->
  has_id (set_node nd {["id" := VStr (nid nd)]}) (nid nd) = true.
Proof.
  intros Hp. apply has_id_set_node; [done|].
  unfold has_id. apply bool_decide_eq_true. by rewrite lookup_singleton_eq.
Qed.

(** ** C4: [upsert_node] merges properties *)

(** Claim C4 (as amended): on every node already stored under the incoming
    id, upsertNode merges the properties key by key: an incoming key is
    overwritten (a [None] value removes it), a stored key the incoming node
    does not mention is kept. *)
Theorem upsert_node_merges_properties (s : store) (nd : Node) (i : nat) (n : props) :
  snodes s !! i = Some n -> has_id n (nid nd) = true ->
  exists n', snodes (upsert_node s nd) !! i = Some n' /\
    forall k, k <> "type" -> k <> "name" ->
      n' !! k = match nproperties nd !! k with
                | Some ov => ov
                | None => n !! k
                end.
Proof.
  intros Hl Hid. unfold upsert_node.
  assert (Hex : existsb (fun n => has_id n (nid nd)) (snodes s) = true).
  { apply existsb_exists. exists n. split; [|done].
    apply list_elem_of_In. by eapply list_elem_of_lookup_2. }
  rewrite Hex. simpl. rewrite lookup_map_list, Hl. simpl. rewrite Hid.
  eexists. split; [reflexivity|]. intros k Ht Hn.
  rewrite lookup_set_node. destruct (nproperties nd !! k); [done|].
  repeat (case_bool_decide; [congruence|]). reflexivity.
Qed.

Lemma upsert_node_idem (s : store) (nd : Node) :
  (nproperties nd !! "id" = None \/
   nproperties nd !! "id" = Some (Some (VStr (nid nd)))) ->
  upsert_node (upsert_node s nd) nd = upsert_node s nd.
Proof.
  intros Hp. destruct s as [ns rs].
  set (f := fun n => if has_id n (nid nd) then set_node nd n else n).
  assert (Hff : forall n, f (f n) = f n).
  { intros n. subst f. simpl. destruct (has_id n (nid nd)) eqn:E.
    - rewrite has_id_set_node by done. by rewrite set_node_idem.
    - by rewrite E. }
  unfold upsert_node. simpl.
  destruct (existsb (fun n => has_id n (nid nd)) ns) eqn:Hex; simpl.
  - assert (Hex' : existsb (fun n => has_id n (nid nd)) (map f ns) = true).
    { apply existsb_exists in Hex as (n & Hin & Hid).
      apply existsb_exists. exists (f n). split; [by apply in_map|].
      subst f. simpl. rewrite Hid. by apply has_id_set_node. }
    fold f. rewrite Hex'. f_equal. rewrite map_map. apply map_ext. exact Hff.
  - rewrite existsb_app. simpl. rewrite has_id_fresh by done.
    rewrite orb_true_r. f_equal. fold f. rewrite map_app. simpl.
    assert (Hid : map f ns = ns).
    { clear Hff. induction ns as [|n ns IH]; [done|]. simpl in *.
      apply orb_false_iff in Hex as [H1 H2]. subst f. simpl. rewrite H1.
      f_equal. by apply IH. }
    rewrite Hid. subst f. simpl. rewrite has_id_fresh by done.
    by rewrite set_node_idem.
Qed.

(** Claim C4 (as amended): upsertNode merges properties key by key into
    every node stored under the incoming id (incoming keys overwrite, a
    [None] value removes its key, unmentioned stored keys are kept), and
    applying it twice with the same input gives the same store as applying
    it once, provided the incoming properties carry no [id] key other than
    the node's own id. *)
Theorem upsert_node_merge_and_idempotent (s : store) (nd : Node) :
  (forall i n, snodes s !! i = Some n -> has_id n (nid nd) = true ->
   exists n', snodes (upsert_node s nd) !! i = Some n' /\
     forall k, k <> "type" -> k <> "name" ->
       n' !! k = match nproperties nd !! k with
                 | Some ov => ov
                 | None => n !! k
                 end) /\
  ((nproperties nd !! "id" = None \/
    nproperties nd !! "id" = Some (Some (VStr (nid nd)))) ->
   upsert_node (upsert_node s nd) nd = upsert_node s nd).
Proof.
  split.
  - intros i n. apply upsert_node_merges_properties.
  - apply upsert_node_idem.
Qed.

(** Claim C4 fails as stated: upserting that node twice leaves two nodes
    in the store, upserting it once leaves one. *)
Lemma upsert_node_not_idempotent :
  upsert_node (upsert_node empty_store labelled_id_node) labelled_id_node
  <> upsert_node empty_store labelled_id_node.
Proof.
  intros H. apply (f_equal (fun s => length (snodes s))) in H.
  vm_compute in H. discriminate.
Qed.

(** ** C5: [upsert_node] rewrites type and name *)

(** Claim C5 (as amended): upsertNode sets the stored type and name of every
    node under the incoming id to the incoming node's type and name, unless
    the incoming properties carry a [type] or [name] key, whose value is
    written last and wins. *)
Theorem upsert_node_sets_type_name (s : store) (nd : Node) (i : nat) (n : props) :
  snodes s !! i = Some n -> has_id n (nid nd) = true ->
  exists n', snodes (upsert_node s nd) !! i = Some n' /\
    n' !! "type" = match nproperties nd !! "type" with
                   | Some ov => ov
                   | None => Some (VStr (ntype nd))
                   end /\
    n' !! "name" = match nproperties nd !! "name" with
                   | Some ov => ov
                   | None => Some (VStr (nname nd))
                   end.
Proof.
  intros Hl Hid. unfold upsert_node.
  assert (Hex : existsb (fun n => has_id n (nid nd)) (snodes s) = true).
  { apply existsb_exists. exists n. split; [|done].
    apply list_elem_of_In. by eapply list_elem_of_lookup_2. }
  rewrite Hex. simpl. rewrite lookup_map_list, Hl. simpl. rewrite Hid.
  eexists. split; [reflexivity|]. rewrite !lookup_set_node. split.
  - destruct (nproperties nd !! "type"); [done|]. reflexivity.
  - destruct (nproperties nd !! "name"); [done|]. reflexivity.
Qed.

(** Claim C5 fails as stated: upserting a node under an existing id with
    another type and name changes the stored type and name. *)
Lemma upsert_node_changes_type_name :
  let s := upsert_node empty_store node_a in
  snodes s !! 0 ≫= (fun n => n !! "type") = Some (VStr "service") /\
  snodes (upsert_node s node_a_as_db) !! 0 ≫= (fun n => n !! "type") = Some (VStr "database") /\
  snodes (upsert_node s node_a_as_db) !! 0 ≫= (fun n => n !! "name") = Some (VStr "a-db").
Proof. vm_compute. repeat split. Qed.

(** ** C3 and C10: [upsert_edge] *)

Lemma lookup_set_rel e r k :
  rprops (set_rel e r) !! k =
  match eproperties e !! k with
  | Some ov => ov
  | None => if bool_decide (k = "type") then Some (VStr (etype e)) else rprops r !! k
  end.
Proof.
  unfold set_rel. simpl. rewrite lookup_set_plus.
  destruct (eproperties e !! k); [done|].
  case_bool_decide; [subst; by rewrite lookup_insert_eq|].
  by rewrite lookup_insert_ne by congruence.
Qed.

(** Claim C3 (as amended): when the source and target ids each name one
    node and an edge with the incoming id already joins them, upsertEdge
    adds no edge but rewrites that edge: its type becomes the incoming type
    (or the incoming [type] property) and its properties are merged key by
    key, incoming keys overwriting. *)
Theorem upsert_edge_existing_overwrites (s : store) (e : Edge) (a b k : nat) (r : grel) :
  node_idxs s (esource e) = [a] -> node_idxs s (etarget e) = [b] ->
  srels s !! k = Some r -> rsrc r = a -> rtgt r = b ->
  has_id (rprops r) (eid e) = true ->
  length (srels (upsert_edge s e)) = length (srels s) /\
  exists r', srels (upsert_edge s e) !! k = Some r' /\
    rsrc r' = a /\ rtgt r' = b /\
    forall key, rprops r' !! key =
      match eproperties e !! key with
      | Some ov => ov
      | None => if bool_decide (key = "type") then Some (VStr (etype e))
                else rprops r !! key
      end.
Proof.
  intros Hs Ht Hk Ha Hb Hid. unfold upsert_edge. simpl. rewrite Hs, Ht. simpl.
  assert (Hm : rel_matches e a b r = true).
  { unfold rel_matches. rewrite Ha, Hb, Hid, !Nat.eqb_refl. reflexivity. }
  assert (Hex : existsb (rel_matches e a b) (srels s) = true).
  { apply existsb_exists. exists r. split; [|done].
    apply list_elem_of_In. by eapply list_elem_of_lookup_2. }
  rewrite Hex. split; [apply length_map|].
  rewrite lookup_map_list, Hk. simpl. rewrite Hm.
  eexists. split; [reflexivity|]. simpl. split; [done|]. split; [done|].
  intros key. apply lookup_set_rel.
Qed.

Lemma upsert_edge_existing_overwrites_witness :
  node_idxs (upsert_edge store_ab edge_ab_calls) (esource edge_ab_uses) = [0] /\
  node_idxs (upsert_edge store_ab edge_ab_calls) (etarget edge_ab_uses) = [1] /\
  exists r, srels (upsert_edge store_ab edge_ab_calls) !! 0 = Some r /\
  (length (srels (upsert_edge (upsert_edge store_ab edge_ab_calls) edge_ab_uses))
   = length (srels (upsert_edge store_ab edge_ab_calls)) /\
  exists r', srels (upsert_edge (upsert_edge store_ab edge_ab_calls) edge_ab_uses) !! 0
             = Some r' /\ rsrc r' = 0 /\ rtgt r' = 1 /\
    forall key, rprops r' !! key =
      match eproperties edge_ab_uses !! key with
      | Some ov => ov
      | None => if bool_decide (key = "type") then Some (VStr (etype edge_ab_uses))
                else rprops r !! key
      end).
Proof.
  split; [vm_compute; reflexivity|]. split; [vm_compute; reflexivity|].
  eexists. split; [vm_compute; reflexivity|].
  apply (upsert_edge_existing_overwrites _ _ 0 1 0);
    vm_compute; reflexivity.
Defined.

(** Claim C3 fails as stated: a second upsert of an edge id already stored
    between the same nodes changes the stored edge's type and properties. *)
Lemma upsert_edge_not_first_write_wins :
  let s1 := upsert_edge store_ab edge_ab_calls in
  let s2 := upsert_edge s1 edge_ab_uses in
  srels s1 !! 0 ≫= (fun r => rprops r !! "type") = Some (VStr "calls") /\
  srels s2 !! 0 ≫= (fun r => rprops r !! "type") = Some (VStr "uses") /\
  srels s2 !! 0 ≫= (fun r => rprops r !! "weight") = Some (VInt 2) /\
  length (srels s2) = 1.
Proof. vm_compute. repeat split. Qed.

(** Claim C10: upsertEdge with a source or target id naming no stored node
    leaves the store unchanged, without error; in particular a raw [owns]
    edge from the teams source whose free-text target is not a node id is
    discarded when the load pipeline upserts it. *)
Theorem upsert_edge_dangling_noop (s : store) (e : Edge) :
  (forall n, n ∈ snodes s -> has_id n (esource e) = false) \/
  (forall n, n ∈ snodes s -> has_id n (etarget e) = false) ->
  upsert_edge s e = s.
Proof.
  intros [H|H]; apply node_idxs_nil in H; destruct s as [ns rs];
    unfold upsert_edge; simpl in *; rewrite H; simpl.
  - reflexivity.
  - induction (node_idxs _ (esource e)); simpl; [reflexivity|]. exact IHl.
Qed.

Lemma upsert_edge_dangling_noop_witness :
  (forall n, n ∈ snodes store_with_team -> has_id n (etarget raw_owns_edge) = false) /\
  upsert_edge store_with_team raw_owns_edge = store_with_team.
Proof.
  assert (H : forall n, n ∈ snodes store_with_team ->
                        has_id n (etarget raw_owns_edge) = false).
  { apply forall_has_id_false. vm_compute. reflexivity. }
  split; [exact H|]. apply upsert_edge_dangling_noop. right. exact H.
Defined.

Lemma upsert_node_sets_type_name_witness :
  snodes store_ab !! 0 = Some (set_node node_a {["id" := VStr "service:a"]}) /\
  has_id (set_node node_a {["id" := VStr "service:a"]}) (nid node_a_as_db) = true /\
  exists n', snodes (upsert_node store_ab node_a_as_db) !! 0 = Some n' /\
    n' !! "type" = match nproperties node_a_as_db !! "type" with
                   | Some ov => ov
                   | None => Some (VStr (ntype node_a_as_db))
                   end /\
    n' !! "name" = match nproperties node_a_as_db !! "name" with
                   | Some ov => ov
                   | None => Some (VStr (nname node_a_as_db))
                   end.
Proof.
  split; [reflexivity|]. split; [vm_compute; reflexivity|].
  apply (upsert_node_sets_type_name _ _ 0 (set_node node_a {["id" := VStr "service:a"]}));
    [reflexivity|vm_compute; reflexivity].
Defined.

(** ** Walks and trails *)

Section Walks.
Variable s : store.

Lemma walk_app d i st1 st2 j :
  walk s d i (st1 ++ st2) j <-> exists m, walk s d i st1 m /\ walk s d m st2 j.
Proof.
  revert i. induction st1 as [|[k n] st1 IH]; intros i; simpl.
  - split; [eauto using walk_nil|]. intros (m & Hw & Hw2). inversion Hw; subst. done.
  - split.
    + intros Hw. inversion Hw; subst.
      apply IH in H6 as (m & H1 & H2). exists m. split; [|done]. econstructor; eauto.
    + intros (m & Hw & Hw2). inversion Hw; subst. econstructor; eauto.
      apply IH. eauto.
Qed.

Lemma dup_split (st : list (nat * nat)) :
  ~ NoDup (map fst st) ->
  exists st1 st2 st3 k n n', st = st1 ++ (k, n) :: st2 ++ (k, n') :: st3.
Proof.
  induction st as [|[k n] st IH]; intros Hnd.
  - destruct Hnd. constructor.
  - simpl in Hnd. destruct (decide (k ∈ map fst st)) as [Hin|Hnin].
    + apply list_elem_of_fmap in Hin as ([k' n'] & Hk & Hin). simpl in Hk. subst k'.
      apply list_elem_of_split in Hin as (l1 & l2 & ->).
      exists [], l1, l2, k, n, n'. reflexivity.
    + destruct IH as (st1 & st2 & st3 & k0 & n0 & n0' & ->).
      { intros Hnd'. apply Hnd. by constructor. }
      exists ((k, n) :: st1), st2, st3, k0, n0, n0'. reflexivity.
Qed.

Lemma crosses_directed_same d r u v u' v' :
  directed d -> crosses d r u v -> crosses d r u' v' -> v = v'.
Proof. intros [-> | ->]; simpl; intuition congruence. Qed.

(** A walk following a relationship twice can skip the part in between. *)
Lemma walk_cut_repeat d i st1 st2 st3 k n n' j :
  directed d ->
  walk s d i (st1 ++ (k, n) :: st2 ++ (k, n') :: st3) j ->
  walk s d i (st1 ++ (k, n) :: st3) j.
Proof.
  intros Hd Hw. apply walk_app in Hw as (m1 & Hw1 & Hw2).
  apply walk_app. exists m1. split; [done|].
  inversion Hw2 as [|? ? r ? ? ? Hr Hc Hrest]; subst.
  apply walk_app in Hrest as (m2 & _ & Hw3).
  inversion Hw3 as [|? ? r' ? ? ? Hr' Hc' Hrest']; subst.
  rewrite Hr in Hr'. injection Hr' as <-.
  assert (n' = n) as -> by (symmetry; eapply crosses_directed_same; eauto).
  econstructor; eauto.
Qed.

(** Every directed walk of at least one step can be shortened to a trail
    with the same ends. *)
Lemma walk_to_trail d i st j :
  directed d -> walk s d i st j -> 1 <= length st ->
  exists st', walk s d i st' j /\ NoDup (map fst st') /\
              1 <= length st' <= length st.
Proof.
  intros Hd. remember (length st) as len eqn:Hlen. revert st Hlen.
  induction len as [len IH] using lt_wf_ind. intros st Hlen Hw H1.
  destruct (decide (NoDup (map fst st))) as [Hnd|Hnd].
  - exists st. subst. split_and!; auto with lia.
  - destruct (dup_split st Hnd) as (st1 & st2 & st3 & k & n & n' & ->).
    pose proof (walk_cut_repeat d i st1 st2 st3 k n n' j Hd Hw) as Hw'.
    assert (Hl : length (st1 ++ (k, n) :: st3) < len).
    { subst. rewrite !length_app. simpl. rewrite length_app. simpl. lia. }
    destruct (IH _ Hl (st1 ++ (k, n) :: st3) eq_refl Hw') as (st' & ? & ? & ?).
    { rewrite length_app. simpl. lia. }
    exists st'. split_and!; auto with lia.
Qed.

Lemma dnext_crosses fwd r u v : dnext fwd r u = Some v <-> crosses (dir_of fwd) r u v.
Proof.
  destruct fwd; simpl; unfold dnext.
  - destruct (Nat.eqb_spec (rsrc r) u); split; intros H.
    + injection H as <-. auto.
    + destruct H as [_ ->]. reflexivity.
    + discriminate.
    + destruct H; contradiction.
  - destruct (Nat.eqb_spec (rtgt r) u); split; intros H.
    + injection H as <-. auto.
    + destruct H as [_ ->]. reflexivity.
    + discriminate.
    + destruct H; contradiction.
Qed.

Lemma in_trail_ends fwd f used cur x :
  In x (trail_ends (srels s) fwd f used cur) <->
  exists st, walk s (dir_of fwd) cur st x /\ 1 <= length st <= f /\
             NoDup (map fst st) /\ (forall k, k ∈ map fst st -> k ∉ used).
Proof.
  revert used cur. induction f as [|f IH]; intros used cur; simpl.
  - split; [intros []|]. intros (st & _ & ? & _). lia.
  - rewrite in_flat_map. split.
    + intros (k & Hk & Hx).
      destruct (srels s !! k) as [r|] eqn:Hr; [|destruct Hx].
      case_bool_decide as Hu; [destruct Hx|].
      destruct (dnext fwd r cur) as [n|] eqn:Hn; [|destruct Hx].
      apply dnext_crosses in Hn. destruct Hx as [<-|Hx].
      * exists [(k, n)]. split; [econstructor; eauto; constructor|].
        split; [simpl; lia|]. split; [constructor; [set_solver|constructor]|].
        intros k' Hk'. simpl in Hk'. apply elem_of_cons in Hk' as [->|Hk'];
          [done|set_solver].
      * apply IH in Hx as (st & Hw & Hl & Hnd & Hdis).
        exists ((k, n) :: st). split; [econstructor; eauto|].
        split; [simpl; lia|]. split.
        -- simpl. constructor; [|done]. intros Hin. by apply (Hdis k Hin); left.
        -- intros k' Hk'. simpl in Hk'. apply elem_of_cons in Hk' as [->|Hk']; [done|].
           intros Hu'. apply (Hdis k' Hk'). by right.
    + intros (st & Hw & Hl & Hnd & Hdis).
      destruct st as [|[k n] st]; [simpl in Hl; lia|].
      inversion Hw as [|? ? r ? ? ? Hr Hc Hrest]; subst. exists k. split.
      { apply in_seq. split; [lia|]. simpl. eapply lookup_lt_Some; eauto. }
      rewrite Hr. case_bool_decide as Hu.
      { exfalso. apply (Hdis k); [left|done]. }
      apply dnext_crosses in Hc. rewrite Hc.
      destruct st as [|st0 st'].
      * inversion Hrest; subst. left. reflexivity.
      * right. apply IH. exists (st0 :: st'). split; [done|].
        simpl in Hl. split; [simpl; lia|].
        simpl in Hnd. apply NoDup_cons in Hnd as [Hk Hnd]. split; [done|].
        intros k' Hk' Hin. apply elem_of_cons in Hin as [->|Hin].
        -- done.
        -- apply (Hdis k'); [by right|done].
Qed.

End Walks.

Lemma directed_dir_of fwd : directed (dir_of fwd).
Proof. destruct fwd; [left|right]; reflexivity. Qed.

Lemma in_reach_idxs s fwd x j :
  j ∈ reach_idxs s fwd x <->
  exists i, i ∈ node_idxs s x /\
    exists st, walk s (dir_of fwd) i st j /\ 1 <= length st <= 10.
Proof.
  unfold reach_idxs. rewrite elem_of_remove_dups, list_elem_of_In, in_flat_map.
  split.
  - intros (i & Hi & Hj). apply in_trail_ends in Hj as (st & Hw & Hl & _).
    exists i. split; [by apply list_elem_of_In|]. eauto.
  - intros (i & Hi & st & Hw & Hl).
    destruct (walk_to_trail s (dir_of fwd) i st j (directed_dir_of fwd) Hw)
      as (st' & Hw' & Hnd & Hl'); [lia|].
    exists i. split; [by apply list_elem_of_In|].
    apply in_trail_ends. exists st'. split_and!; auto with lia.
    intros k _ Hk. by apply not_elem_of_nil in Hk.
Qed.

(** ** C6: [downstream] and [upstream] *)

(** Claim C6 (as amended): without edge types, downstream(id) returns, each
    once, exactly the nodes reached from the node(s) with that id by a
    forward walk of 1 to 10 edges of any type ([owns] included), the start
    node itself when such a walk returns to it; upstream(id) is the same
    with edges followed backwards.  On the spec's fixture, downstream(A) =
    [B; C] and upstream(C) = [B; A; T]. *)
Theorem downstream_upstream_reachability (s : store) (x : string) :
  (forall j, j ∈ reach_idxs s true x <->
     exists i, i ∈ node_idxs s x /\
       exists st, walk s Fwd i st j /\ 1 <= length st <= 10) /\
  (forall j, j ∈ reach_idxs s false x <->
     exists i, i ∈ node_idxs s x /\
       exists st, walk s Bwd i st j /\ 1 <= length st <= 10) /\
  NoDup (reach_idxs s true x) /\ NoDup (reach_idxs s false x) /\
  ids_of (downstream fixture_store "service:A")
    = [Some (VStr "service:B"); Some (VStr "service:C")] /\
  ids_of (upstream fixture_store "service:C")
    = [Some (VStr "service:B"); Some (VStr "service:A"); Some (VStr "team:T")].
Proof.
  split; [intros j; apply (in_reach_idxs s true)|].
  split; [intros j; apply (in_reach_idxs s false)|].
  split; [apply NoDup_remove_dups|]. split; [apply NoDup_remove_dups|].
  split; vm_compute; reflexivity.
Qed.

(** Claim C6 fails as stated: on the spec's fixture upstream(C) also holds
    the team T (through its [owns] edge), and on a cycle a -> b -> a,
    downstream(a) holds a itself. *)
Lemma upstream_fixture_has_team :
  Some (VStr "team:T") ∈ ids_of (upstream fixture_store "service:C") /\
  Some (VStr "service:a") ∈ ids_of (downstream cycle_store "service:a").
Proof.
  split; vm_compute.
  - right. right. left.
  - right. left.
Qed.

(** ** C7: [blast_radius] *)


Lemma get_node_some s x n : get_node s x = Some n -> has_id n x = true.
Proof.
  unfold get_node. induction (snodes s) as [|m l IH]; simpl; [discriminate|].
  rewrite filter_cons. case_decide as E; simpl; [|exact IH].
  intros [= <-]. exact E.
Qed.

Lemma get_node_none s x :
  get_node s x = None <-> forall n, n ∈ snodes s -> has_id n x = false.
Proof.
  unfold get_node. induction (snodes s) as [|m l IH]; simpl.
  - split; [|done]. intros _ n Hn. by apply not_elem_of_nil in Hn.
  - rewrite filter_cons. case_decide as E; simpl.
    + split; [discriminate|]. intros H. rewrite H in E; [discriminate|left].
    + apply not_true_iff_false in E. rewrite IH. split.
      * intros H n Hn. apply elem_of_cons in Hn as [->|Hn]; auto.
      * intros H n Hn. apply H. by right.
Qed.



(** ** C8: [get_owner] *)

Lemma elem_of_owner_rows s x t :
  t ∈ owner_rows s (Some (VStr x)) <-> exists r, owns_link s x r t.
Proof.
  unfold owner_rows. rewrite list_elem_of_omap. split.
  - intros (r & Hr & Hf).
    destruct (snodes s !! rsrc r) as [team|] eqn:Ht; [|discriminate].
    destruct (snodes s !! rtgt r) as [tg|] eqn:Hg; [|discriminate].
    case_bool_decide as Hc; [|discriminate]. injection Hf as <-.
    destruct Hc as (H1 & H2 & _ & H4). exists r. repeat split; eauto.
  - intros (r & Hr & Ht & H1 & H2 & tg & Hg & H4). exists r. split; [done|].
    rewrite Ht, Hg. rewrite bool_decide_eq_true_2; [done|].
    split_and!; eauto.
Qed.

(** Claim C8 (as amended): getOwner(x) returns a team node with an [owns]
    edge to the node with id x, and returns [None] exactly when no such
    team exists; when several teams own x it returns the first matching
    row and raises no AmbiguousOwner error. *)
Theorem get_owner_first_owner (s : store) (x : string) :
  (forall t, get_owner s x = Some t -> exists r, owns_link s x r t) /\
  (get_owner s x = None <-> forall r t, ~ owns_link s x r t) /\
  (forall t rows, owner_rows s (Some (VStr x)) = t :: rows -> get_owner s x = Some t).
Proof.
  unfold get_owner, get_owner_v. split; [|split].
  - intros t Ht. apply elem_of_owner_rows.
    destruct (owner_rows s (Some (VStr x))) as [|t' rows]; [discriminate|].
    injection Ht as ->. left.
  - split.
    + intros Hn r t Hl. assert (Hin : t ∈ owner_rows s (Some (VStr x))).
      { apply elem_of_owner_rows. eauto. }
      destruct (owner_rows s (Some (VStr x))); [|discriminate].
      by apply not_elem_of_nil in Hin.
    + intros Hno. destruct (owner_rows s (Some (VStr x))) as [|t rows] eqn:E;
        [reflexivity|].
      exfalso. assert (Hin : t ∈ owner_rows s (Some (VStr x))) by (rewrite E; left).
      apply elem_of_owner_rows in Hin as [r Hr]. by apply (Hno r t).
  - intros t rows ->. reflexivity.
Qed.

(** Claim C8 fails as stated: with two owning teams, getOwner silently
    returns the first one. *)
Lemma get_owner_two_owners_picks_one :
  length (owner_rows two_owner_store (Some (VStr "service:A"))) = 2 /\
  get_owner two_owner_store "service:A" ≫= (fun t => t !! "id")
    = Some (VStr "team:T1").
Proof. split; vm_compute; reflexivity. Qed.

(** ** C2: [path] *)

Section Paths.
Variable s : store.

Lemma remove_dups_nodup (l : list nat) : NoDup l -> remove_dups l = l.
Proof.
  induction l as [|x l IH]; intros Hnd; [done|]. simpl.
  apply NoDup_cons in Hnd as [Hx Hnd].
  destruct (decide_rel _ x l) as [Hin|_]; [contradiction|]. by rewrite IH.
Qed.

(** The node reached by a step lies on the walk after its start. *)
Lemma walk_split_at d i st j x :
  walk s d i st j -> x ∈ map snd st ->
  exists sa sb, st = sa ++ sb /\ sa <> [] /\ walk s d i sa x /\ walk s d x sb j.
Proof.
  induction 1 as [i|i k r n st j Hr Hc Hw IH]; simpl; intros Hx.
  - by apply not_elem_of_nil in Hx.
  - apply elem_of_cons in Hx as [->|Hx].
    + exists [(k, n)], st. split_and!; [done|done| |done].
      econstructor; eauto. constructor.
    + destruct (IH Hx) as (sa & sb & -> & Hne & Hwa & Hwb).
      exists ((k, n) :: sa), sb. split_and!; [done|done| |done].
      econstructor; eauto.
Qed.

(** A walk that visits a node twice contains a closed sub-walk. *)
Lemma walk_repeat_split d i st j :
  walk s d i st j -> ~ NoDup (i :: map snd st) ->
  exists st1 st2 st3 m, st = st1 ++ st2 ++ st3 /\ st2 <> [] /\
    walk s d i st1 m /\ walk s d m st2 m /\ walk s d m st3 j.
Proof.
  induction 1 as [i|i k r n st j Hr Hc Hw IH]; intros Hnd.
  - destruct Hnd. apply NoDup_singleton.
  - destruct (decide (i ∈ map snd ((k, n) :: st))) as [Hin|Hnin].
    + destruct (walk_split_at d i ((k, n) :: st) j i
                  (walk_cons s d i k r n st j Hr Hc Hw) Hin)
        as (sa & sb & Heq & Hne & Hwa & Hwb).
      exists [], sa, sb, i. split_and!; [done|done|constructor|done|done].
    + destruct IH as (st1 & st2 & st3 & m & -> & Hne & H1 & H2 & H3).
      { intros Hnd'. apply Hnd. simpl. constructor; [exact Hnin|exact Hnd']. }
      exists ((k, n) :: st1), st2, st3, m. split_and!; [done|done| |done|done].
      econstructor; eauto.
Qed.

(** Every walk can be shortened to one visiting each node once. *)
Lemma walk_to_simple d i st j :
  walk s d i st j ->
  exists st', walk s d i st' j /\ NoDup (i :: map snd st') /\
              length st' <= length st /\ sublist (map fst st') (map fst st).
Proof.
  remember (length st) as len eqn:Hlen. revert st Hlen.
  induction len as [len IH] using lt_wf_ind. intros st Hlen Hw.
  destruct (decide (NoDup (i :: map snd st))) as [Hnd|Hnd].
  - exists st. split_and!; [done|done|lia|reflexivity].
  - destruct (walk_repeat_split d i st j Hw Hnd)
      as (st1 & st2 & st3 & m & -> & Hne & H1 & H2 & H3).
    assert (Hw' : walk s d i (st1 ++ st3) j) by (apply walk_app; eauto).
    assert (Hl : length (st1 ++ st3) < len).
    { subst. rewrite !length_app. destruct st2; [done|]. simpl. lia. }
    destruct (IH _ Hl (st1 ++ st3) eq_refl Hw') as (st' & Hw'' & Hnd' & Hle & Hsub).
    exists st'. split_and!; [done|done|lia|].
    etrans; [exact Hsub|]. rewrite !map_app.
    apply sublist_app; [reflexivity|].
    apply sublist_inserts_l. reflexivity.
Qed.
Lemma crosses_endpoint d r a b u v :
  crosses d r a b -> crosses d r u v -> a = u \/ a = v.
Proof. destruct d; simpl; intuition congruence. Qed.

Lemma step_in_walk d n st j (k m : nat) :
  walk s d n st j -> (k, m) ∈ st ->
  exists (u : nat) (r : grel), srels s !! k = Some r /\ crosses d r u m /\
              u ∈ n :: map snd st /\ m ∈ map snd st.
Proof.
  induction 1 as [i|i k' r n' st j Hr Hc Hw IH]; intros Hin.
  - by apply not_elem_of_nil in Hin.
  - apply elem_of_cons in Hin as [Heq|Hin].
    + injection Heq as -> ->. exists i, r. split_and!; [done|done|left|left].
    + destruct (IH Hin) as (u & r' & Hr' & Hc' & Hu & Hm).
      exists u, r'. split_and!; [done|done| |].
      * simpl. by right.
      * simpl. by right.
Qed.

(** A walk visiting each node once uses each relationship once. *)
Lemma simple_walk_is_trail d i st j :
  walk s d i st j -> NoDup (i :: map snd st) -> NoDup (map fst st).
Proof.
  induction 1 as [i|i k r n st j Hr Hc Hw IH]; intros Hnd; simpl; [constructor|].
  simpl in Hnd. apply NoDup_cons in Hnd as [Hi Hnd]. constructor; [|by apply IH].
  intros Hk. apply list_elem_of_fmap in Hk as ([k' m] & Hk' & Hin). simpl in Hk'. subst k'.
  destruct (step_in_walk d n st j k m Hw Hin) as (u & r' & Hr' & Hc' & Hu & Hm).
  rewrite Hr in Hr'. injection Hr' as <-.
  destruct (crosses_endpoint d r i n u m Hc Hc') as [->| ->].
  - by apply Hi.
  - apply Hi. by right.
Qed.
End Paths.

(** Claim C2 (as amended): for two distinct nodes, each the only node with
    its id, every result path may return is either the empty sequence, when
    no walk of at most 15 edges (in either direction) joins them, or the
    node sequence of a walk from the first to the second that visits each
    node once and has the true shortest hop count among all walks of at
    most 15 edges.  Among several shortest walks any one may be returned. *)
Theorem path_shortest (s : store) (from_id to_id : string) (i j : nat)
    (out : outcome (list props)) :
  node_idxs s from_id = [i] -> node_idxs s to_id = [j] -> i <> j ->
  path_rel s from_id to_id out ->
  (out = Ret [] /\ forall st, walk s Undir i st j -> 15 < length st) \/
  (exists st, walk s Undir i st j /\ 1 <= length st <= 15 /\
     NoDup (i :: map snd st) /\ out = Ret (nodes_at s (i :: map snd st)) /\
     forall st', walk s Undir i st' j -> length st' <= 15 -> length st <= length st').
Proof.
  intros Hi Hj Hij Hp.
  (* a walk of at most 15 steps between distinct nodes gives a trail no longer *)
  assert (Hshort : forall st', walk s Undir i st' j -> length st' <= 15 ->
                   exists st'', trail s i st'' j /\ length st'' <= length st').
  { intros st' Hw Hl.
    destruct (walk_to_simple s Undir i st' j Hw) as (st'' & Hw'' & Hnd & Hle & _).
    exists st''. split; [|done]. split; [done|]. split.
    - by eapply simple_walk_is_trail.
    - destruct st''; [inversion Hw''; subst; contradiction|]. simpl in *. lia. }
  inversion Hp as [Hno|i' Hi' Hj'|i' j' st Hi' Hj' Hne Ht Hmin|i' j' Hi' Hj' Hne Hnone];
    subst.
  - destruct Hno as [H|H]; [rewrite Hi in H|rewrite Hj in H]; discriminate.
  - rewrite Hi in Hi'. rewrite Hj in Hj'. congruence.
  - rewrite Hi in Hi'. rewrite Hj in Hj'. injection Hi' as <-. injection Hj' as <-.
    right. destruct Ht as (Hw & Hnd & Hl).
    assert (Hsimple : NoDup (i :: map snd st)).
    { destruct (decide (NoDup (i :: map snd st))) as [?|Hd]; [done|exfalso].
      destruct (walk_repeat_split s Undir i st j Hw Hd)
        as (st1 & st2 & st3 & m & -> & Hne2 & H1 & H2 & H3).
      assert (Hw' : walk s Undir i (st1 ++ st3) j) by (apply walk_app; eauto).
      assert (Hlen : length (st1 ++ st3) < length (st1 ++ st2 ++ st3)).
      { rewrite !length_app. destruct st2; [done|]. simpl. lia. }
      destruct (Hshort (st1 ++ st3) Hw') as (st'' & Ht'' & Hle); [lia|].
      specialize (Hmin st'' Ht''). lia. }
    exists st. split_and!; [done|lia|lia|done| |].
    + by rewrite remove_dups_nodup.
    + intros st' Hw' Hl'. destruct (Hshort st' Hw' Hl') as (st'' & Ht'' & Hle).
      specialize (Hmin st'' Ht''). lia.
  - rewrite Hi in Hi'. rewrite Hj in Hj'. injection Hi' as <-. injection Hj' as <-.
    left. split; [done|]. intros st Hw. destruct (decide (length st <= 15)); [|lia].
    destruct (Hshort st Hw) as (st'' & Ht'' & _); [done|].
    exfalso. by apply (Hnone st'').
Qed.

Lemma diamond_no_direct_edge (st : list (nat * nat)) :
  trail diamond_store 0 st 3 -> 2 <= length st.
Proof.
  intros (Hw & _ & Hl). destruct st as [|[k n] [|x y]]; simpl in *; [lia| |lia].
  inversion Hw as [|? ? r ? ? ? Hr Hc Hrest]; subst.
  inversion Hrest; subst.
  destruct k as [|[|[|[|k]]]]; vm_compute in Hr; try discriminate;
    injection Hr as <-; simpl in Hc; lia.
Qed.

(** The query may answer A, C, D for the diamond. *)
Lemma diamond_path_via_C :
  path_rel diamond_store "service:A" "service:D"
           (Ret (nodes_at diamond_store [0; 2; 3])).
Proof.
  apply (path_found diamond_store "service:A" "service:D" 0 3 [(1, 2); (3, 3)]).
  - vm_compute. reflexivity.
  - vm_compute. reflexivity.
  - lia.
  - split; [|split].
    + eapply walk_cons; [vm_compute; reflexivity|simpl; left; split; reflexivity|].
      eapply walk_cons; [vm_compute; reflexivity|simpl; left; split; reflexivity|].
      constructor.
    + simpl. repeat constructor; set_solver.
    + simpl. lia.
  - intros st' Ht. apply diamond_no_direct_edge in Ht. simpl. lia.
Qed.

Lemma path_shortest_witness :
  node_idxs diamond_store "service:A" = [0] /\
  node_idxs diamond_store "service:D" = [3] /\
  path_rel diamond_store "service:A" "service:D"
           (Ret (nodes_at diamond_store [0; 2; 3])) /\
  ((Ret (nodes_at diamond_store [0; 2; 3]) = Ret [] /\
    forall st, walk diamond_store Undir 0 st 3 -> 15 < length st) \/
   (exists st, walk diamond_store Undir 0 st 3 /\ 1 <= length st <= 15 /\
      NoDup (0 :: map snd st) /\
      Ret (nodes_at diamond_store [0; 2; 3])
        = Ret (nodes_at diamond_store (0 :: map snd st)) /\
      forall st', walk diamond_store Undir 0 st' 3 -> length st' <= 15 ->
                  length st <= length st')).
Proof.
  split; [vm_compute; reflexivity|]. split; [vm_compute; reflexivity|].
  split; [exact diamond_path_via_C|].
  apply (path_shortest diamond_store "service:A" "service:D" 0 3).
  - vm_compute. reflexivity.
  - vm_compute. reflexivity.
  - lia.
  - exact diamond_path_via_C.
Defined.

(** Claim C2 fails as stated: on the diamond the query may return A, C, D,
    although B precedes C. *)
Lemma path_no_lexicographic_tie_break :
  path_rel diamond_store "service:A" "service:D"
           (Ret (nodes_at diamond_store [0; 2; 3])) /\
  ids_of (nodes_at diamond_store [0; 2; 3])
    = [Some (VStr "service:A"); Some (VStr "service:C"); Some (VStr "service:D")].
Proof. split; [exact diamond_path_via_C|vm_compute; reflexivity]. Qed.

(** ** C1: ownership resolution *)

Lemma dict_get_set {V} (d : list (string * V)) k v k' :
  dict_get (dict_set d k v) k' = if String.eqb k' k then Some v else dict_get d k'.
Proof.
  induction d as [|[k0 v0] d IH]; simpl.
  - destruct (String.eqb k' k); reflexivity.
  - destruct (String.eqb_spec k k0) as [->|Hne]; simpl.
    + destruct (String.eqb k' k0); reflexivity.
    + destruct (String.eqb_spec k' k0) as [->|Hne'].
      * destruct (String.eqb_spec k0 k); [congruence|reflexivity].
      * exact IH.
Qed.

Lemma keys_dict_set {V} (d : list (string * V)) k v :
  map fst (dict_set d k v) = py_set_add (map fst d) k.
Proof.
  unfold py_set_add. induction d as [|[k0 v0] d IH]; simpl.
  - reflexivity.
  - destruct (String.eqb_spec k k0) as [->|Hne]; simpl.
    + rewrite bool_decide_eq_true_2; [reflexivity|left].
    + rewrite IH. case_bool_decide as H1; case_bool_decide as H2.
      * reflexivity.
      * exfalso. apply H2. by right.
      * exfalso. apply elem_of_cons in H2 as [?|?]; [congruence|done].
      * reflexivity.
Qed.

Lemma dict_get_build ns d k :
  dict_get (fold_left (fun m n => dict_set (dict_set m (nname n) (nid n)) (nid n) (nid n))
                      ns d) k =
  match key_owner ns k with Some v => Some v | None => dict_get d k end.
Proof.
  revert d. induction ns as [|n ns IH]; intros d; simpl; [reflexivity|].
  rewrite IH, !dict_get_set. destruct (key_owner ns k); [reflexivity|].
  destruct (String.eqb k (nname n)), (String.eqb k (nid n)); reflexivity.
Qed.

Lemma keys_build ns d :
  map fst (fold_left (fun m n => dict_set (dict_set m (nname n) (nid n)) (nid n) (nid n))
                     ns d) =
  fold_left py_set_add (node_keys ns) (map fst d).
Proof.
  revert d. induction ns as [|n ns IH]; intros d; simpl; [reflexivity|].
  rewrite IH, !keys_dict_set. reflexivity.
Qed.

Lemma find_app_str (p : string -> bool) l1 l2 :
  find p (l1 ++ l2) = match find p l1 with Some x => Some x | None => find p l2 end.
Proof.
  induction l1 as [|a l1 IH]; simpl; [reflexivity|].
  destruct (p a); [reflexivity|exact IH].
Qed.

Lemma find_py_set_add (p : string -> bool) l acc :
  find p (fold_left py_set_add l acc) =
  match find p acc with Some x => Some x | None => find p l end.
Proof.
  revert acc. induction l as [|a l IH]; intros acc; simpl.
  - destruct (find p acc); reflexivity.
  - rewrite IH. unfold py_set_add. case_bool_decide as Ha.
    + destruct (find p acc) eqn:Hf; [reflexivity|].
      destruct (p a) eqn:Hpa; [|reflexivity].
      exfalso. apply list_elem_of_In in Ha.
      pose proof (find_none p acc Hf a Ha). congruence.
    + rewrite find_app_str. destruct (find p acc); [reflexivity|].
      simpl. destruct (p a); reflexivity.
Qed.

Lemma find_keys {V} (p : string -> bool) (d : list (string * V)) :
  option_map fst (find (fun kv => p kv.1) d) = find p (map fst d).
Proof.
  induction d as [|[k v] d IH]; simpl; [reflexivity|].
  destruct (p k); [reflexivity|exact IH].
Qed.

Lemma find_dict_get {V} (p : string -> bool) (d : list (string * V)) k v :
  find (fun kv => p kv.1) d = Some (k, v) -> dict_get d k = Some v.
Proof.
  induction d as [|[k0 v0] d IH]; simpl; [discriminate|].
  destruct (p k0) eqn:Hp.
  - intros [= -> ->]. rewrite String.eqb_refl. reflexivity.
  - intros Hf. destruct (String.eqb_spec k k0) as [->|]; [|exact (IH Hf)].
    apply find_some in Hf as [_ Hf]. simpl in Hf. congruence.
Qed.

Lemma find_node_map (p : string -> bool) ns :
  option_map fst (find (fun kv => p kv.1) (build_node_map ns)) = find p (node_keys ns).
Proof.
  unfold build_node_map. rewrite find_keys, keys_build, find_py_set_add. reflexivity.
Qed.

Lemma dict_get_node_map ns k :
  dict_get (build_node_map ns) k = key_owner ns k.
Proof.
  unfold build_node_map. rewrite dict_get_build. destruct (key_owner ns k); reflexivity.
Qed.

Lemma fold_outcome_app {B : Type} (f : Edge -> outcome (list B)) (xs : list Edge) acc :
  fold_left (fun acc e =>
    match acc with
    | Ret done => match f e with Ret new => Ret (done ++ new) | Raise x => Raise x end
    | Raise x => Raise x
    end) xs acc
  = match acc with
    | Ret done =>
        match fold_left (fun acc e =>
          match acc with
          | Ret done => match f e with Ret new => Ret (done ++ new) | Raise x => Raise x end
          | Raise x => Raise x
          end) xs (Ret []) with
        | Ret l => Ret (done ++ l)
        | Raise x => Raise x
        end
    | Raise x => Raise x
    end.
Proof.
  revert acc. induction xs as [|x xs IH]; intros acc; simpl.
  - destruct acc; [by rewrite app_nil_r|reflexivity].
  - rewrite (IH (match acc with Ret _ => _ | Raise _ => _ end)), (IH (match f x with Ret _ => _ | Raise _ => _ end)).
    destruct acc as [d|y]; [|reflexivity].
    destruct (f x) as [n|y]; [|reflexivity].
    destruct (fold_left _ xs (Ret [])); [|reflexivity].
    simpl. by rewrite app_assoc.
Qed.

Lemma resolve_ownership_app ns es1 es2 :
  resolve_ownership_targets ns (es1 ++ es2)
  = match resolve_ownership_targets ns es1 with
    | Ret l1 => match resolve_ownership_targets ns es2 with
                | Ret l2 => Ret (l1 ++ l2)
                | Raise x => Raise x
                end
    | Raise x => Raise x
    end.
Proof.
  unfold resolve_ownership_targets. rewrite fold_left_app.
  exact (fold_outcome_app (resolve_one (build_node_map ns)) es2 _).
Qed.

(** Claim C1, as the code has it.  Over [self.edges] the results of the
    edges are concatenated in edge order, and the first exception of any
    edge aborts the whole call.  For one raw edge [e]: an exact name or id
    match wins (the last node written under that key); otherwise the FIRST
    key in [node_map]'s insertion order (node order, name before id) that
    contains [target] or ends with it is chosen, and the new edge id is
    built from the parts after the first colon of the source and of the
    chosen node id ([IndexError] when one has no colon); without any
    match, and for edges that are not [owns], nothing is produced and
    nothing is reported. *)
Theorem resolve_ownership_first_match (ns : list Node) (e : Edge) :
  resolve_ownership_targets ns [] = Ret [] /\
  (forall es1 es2, resolve_ownership_targets ns (es1 ++ es2)
     = match resolve_ownership_targets ns es1 with
       | Ret l1 => match resolve_ownership_targets ns es2 with
                   | Ret l2 => Ret (l1 ++ l2)
                   | Raise x => Raise x
                   end
       | Raise x => Raise x
       end) /\
  (etype e <> "owns" -> resolve_ownership_targets ns [e] = Ret []) /\
  (etype e = "owns" -> forall v, key_owner ns (etarget e) = Some v ->
     resolve_ownership_targets ns [e]
       = Ret [mkEdge (eid e) "owns" (esource e) v (eproperties e)]) /\
  (etype e = "owns" -> key_owner ns (etarget e) = None ->
     forall k, find (fuzzy_match (etarget e)) (node_keys ns) = Some k ->
     exists v, key_owner ns k = Some v /\
       resolve_ownership_targets ns [e]
         = match after_colon (esource e), after_colon v with
           | Ret a, Ret b =>
               Ret [mkEdge ("edge:" +:+ a +:+ "-owns-" +:+ b) "owns"
                           (esource e) v (eproperties e)]
           | Raise x, _ => Raise x
           | _, Raise x => Raise x
           end) /\
  (etype e = "owns" -> key_owner ns (etarget e) = None ->
     find (fuzzy_match (etarget e)) (node_keys ns) = None ->
     resolve_ownership_targets ns [e] = Ret []).
Proof.
  split; [reflexivity|]. split; [exact (resolve_ownership_app ns)|].
  unfold resolve_ownership_targets. simpl. unfold resolve_one.
  split; [|split; [|split]].
  - intros Hne. destruct (String.eqb_spec (etype e) "owns"); [contradiction|reflexivity].
  - intros Ho v Hv. rewrite Ho. simpl.
    rewrite dict_get_node_map, Hv. reflexivity.
  - intros Ho Hv k Hk. rewrite Ho. simpl. rewrite dict_get_node_map, Hv.
    pose proof (find_node_map (fuzzy_match (etarget e)) ns) as Hf.
    rewrite Hk in Hf.
    destruct (find (fun kv => fuzzy_match (etarget e) kv.1) (build_node_map ns))
      as [[k' v]|] eqn:Hfd; [|discriminate].
    simpl in Hf. injection Hf as ->.
    exists v. split.
    + rewrite <- dict_get_node_map. exact (find_dict_get _ _ _ _ Hfd).
    + destruct (after_colon (esource e)), (after_colon v); reflexivity.
  - intros Ho Hv Hn. rewrite Ho. simpl. rewrite dict_get_node_map, Hv.
    pose proof (find_node_map (fuzzy_match (etarget e)) ns) as Hf.
    rewrite Hn in Hf.
    destruct (find (fun kv => fuzzy_match (etarget e) kv.1) (build_node_map ns))
      as [[k' v]|]; [discriminate|reflexivity].
Qed.

Lemma resolve_ownership_first_match_witness :
  etype owns_auth_edge = "owns" /\
  key_owner auth_nodes (etarget owns_auth_edge) = None /\
  find (fuzzy_match (etarget owns_auth_edge)) (node_keys auth_nodes) = Some "zeta-auth" /\
  exists v, key_owner auth_nodes "zeta-auth" = Some v /\
    resolve_ownership_targets auth_nodes [owns_auth_edge]
      = match after_colon (esource owns_auth_edge), after_colon v with
        | Ret a, Ret b =>
            Ret [mkEdge ("edge:" +:+ a +:+ "-owns-" +:+ b) "owns"
                        (esource owns_auth_edge) v (eproperties owns_auth_edge)]
        | Raise x, _ => Raise x
        | _, Raise x => Raise x
        end.
Proof.
  split; [reflexivity|]. split; [vm_compute; reflexivity|].
  split; [vm_compute; reflexivity|].
  apply (resolve_ownership_first_match auth_nodes owns_auth_edge).
  - reflexivity.
  - vm_compute. reflexivity.
  - vm_compute. reflexivity.
Defined.

(** Claim C1 fails as stated: with candidates [service:zeta-auth] and
    [service:alpha-auth] for target [auth], the code picks the first one
    written into [node_map] (zeta), not the smallest id (alpha); an owns
    edge with no candidate is dropped with no diagnostic. *)
Lemma resolve_ownership_not_smallest_id :
  resolve_ownership_targets auth_nodes [owns_auth_edge; owns_ghost_edge]
    = Ret [mkEdge "edge:platform-owns-zeta-auth" "owns" "team:platform"
                  "service:zeta-auth" ∅] /\
  (String.ltb "service:alpha-auth" "service:zeta-auth" = true).
Proof. split; vm_compute; reflexivity. Qed.

(** ** C9: edge types of the connectors *)

Lemma add_edge_forall (P : Edge -> Prop) acc e :
  Forall P acc -> P e -> Forall P (add_edge acc e).
Proof.
  intros Hacc He. unfold add_edge.
  destruct (existsb _ acc); [exact Hacc|].
  apply Forall_app. split; [exact Hacc|]. by constructor.
Qed.

Lemma fold_forall {A} (P : Edge -> Prop) (f : list Edge -> A -> list Edge) xs acc :
  (forall acc x, x ∈ xs -> Forall P acc -> Forall P (f acc x)) ->
  Forall P acc -> Forall P (fold_left f xs acc).
Proof.
  revert acc. induction xs as [|x xs IH]; intros acc Hf Hacc; simpl; [exact Hacc|].
  apply IH.
  - intros acc' y Hy. apply Hf. by right.
  - apply Hf; [left|exact Hacc].
Qed.

Lemma dep_edge_typed services name source_id dep :
  typed_by_target services
    (dep_edge name source_id dep (infer_node_type dep (services_get services dep))).
Proof. exists dep. split; reflexivity. Qed.

Lemma compose_service_edges_typed services edges nc :
  Forall (typed_by_target services) edges ->
  Forall (typed_by_target services) (compose_service_edges services edges nc).
Proof.
  intros H. destruct nc as [name config]. unfold compose_service_edges.
  apply fold_forall.
  - intros acc [key value] _ Hacc.
    destruct (contains "_URL" key && negb (String.eqb value "")); [|exact Hacc].
    destruct (extract_service_from_url value) as [t|]; [|exact Hacc].
    destruct (String.eqb t ""); [exact Hacc|].
    destruct (dict_get services t) as [c|] eqn:Hc; [|exact Hacc].
    destruct (String.eqb _ _); [exact Hacc|].
    apply add_edge_forall; [exact Hacc|].
    assert (Hs : services_get services t = c) by (unfold services_get; rewrite Hc; reflexivity).
    pose proof (dep_edge_typed services name
                  (infer_node_type name config +:+ ":" +:+ name) t) as Hd.
    rewrite Hs in Hd. exact Hd.
  - apply fold_forall; [|exact H].
    intros acc dep _ Hacc. apply add_edge_forall; [exact Hacc|apply dep_edge_typed].
Qed.

Lemma deployment_edges_calls edges name cenv :
  Forall (fun e => etype e = "calls" /\ exists t, etarget e = "service:" +:+ t) edges ->
  Forall (fun e => etype e = "calls" /\ exists t, etarget e = "service:" +:+ t)
         (deployment_edges edges name cenv).
Proof.
  intros H. unfold deployment_edges. apply fold_forall; [|exact H].
  intros acc [key value] _ Hacc.
  destruct (contains "_URL" key && negb (String.eqb value "")); [|exact Hacc].
  destruct (extract_service_from_k8s_url value) as [t|]; [|exact Hacc].
  destruct (negb _ && negb _); [|exact Hacc].
  apply add_edge_forall; [exact Hacc|]. simpl. split; [reflexivity|by exists t].
Qed.

(** Claim C9, as the code has it: the compose connector types each edge
    by the inferred type of the target it names (reads_from for a
    database, uses for a cache, calls otherwise), while the cluster-manifest
    connector emits every edge as [calls] to [service:<name>], with no type
    inference. *)
Theorem connector_edge_types (services : list (string * ServiceConfig))
    (docs : list K8sDoc) :
  (forall e, e ∈ compose_edges services -> typed_by_target services e) /\
  (forall e, e ∈ k8s_edges docs ->
     etype e = "calls" /\ exists t, etarget e = "service:" +:+ t).
Proof.
  split.
  - apply Forall_forall. unfold compose_edges. apply fold_forall; [|constructor].
    intros acc nc _. apply compose_service_edges_typed.
  - apply Forall_forall. unfold k8s_edges. apply fold_forall; [|constructor].
    intros acc [name cenv|] _ Hacc; [|exact Hacc].
    destruct (String.eqb name ""); [exact Hacc|]. by apply deployment_edges_calls.
Qed.

Lemma connector_edge_types_witness :
  orders_compose_edge ∈ compose_edges orders_services /\
  typed_by_target orders_services orders_compose_edge /\
  orders_k8s_edge ∈ k8s_edges orders_docs /\
  (etype orders_k8s_edge = "calls" /\
   exists t, etarget orders_k8s_edge = "service:" +:+ t).
Proof.
  assert (H1 : orders_compose_edge ∈ compose_edges orders_services).
  { apply list_elem_of_In. vm_compute. left. reflexivity. }
  assert (H2 : orders_k8s_edge ∈ k8s_edges orders_docs).
  { apply list_elem_of_In. vm_compute. left. reflexivity. }
  split; [exact H1|]. split.
  - exact (proj1 (connector_edge_types orders_services orders_docs) _ H1).
  - split; [exact H2|].
    exact (proj2 (connector_edge_types orders_services orders_docs) _ H2).
Defined.

(** Claim C9 fails as stated: the manifest connector types the edge from
    [api] to the database [orders-db] as [calls], where the shared
    heuristic gives [reads_from]; the compose connector gives [reads_from]. *)
Lemma k8s_edge_type_not_inferred :
  map (fun e => (etype e, etarget e)) (k8s_edges orders_docs)
    = [("calls", "service:orders-db")] /\
  infer_edge_type (infer_node_type "orders-db" empty_config) = "reads_from" /\
  map (fun e => (etype e, etarget e)) (compose_edges orders_services)
    = [("reads_from", "database:orders-db")].
Proof. split; [|split]; vm_compute; reflexivity. Qed.


Lemma get_owner_first_owner_witness :
  exists t rows, owner_rows two_owner_store (Some (VStr "service:A")) = t :: rows /\
    get_owner two_owner_store "service:A" = Some t /\
    exists r, owns_link two_owner_store "service:A" r t.
Proof.
  remember (owner_rows two_owner_store (Some (VStr "service:A"))) as l eqn:E.
  destruct l as [|t rows]; [vm_compute in E; discriminate|].
  exists t, rows. split; [reflexivity|].
  assert (Hg : get_owner two_owner_store "service:A" = Some t).
  { exact (proj2 (proj2 (get_owner_first_owner two_owner_store "service:A"))
             t rows (eq_sym E)). }
  split; [exact Hg|].
  exact (proj1 (get_owner_first_owner two_owner_store "service:A") t Hg).
Defined.

(** * Further properties of the code *)

(** ** [BaseConnector._add_node] and [_add_edge] *)

Lemma ids_merge_into_first nodes nd :
  map nid (merge_into_first nodes nd) = map nid nodes.
Proof.
  induction nodes as [|n ns IH]; simpl; [reflexivity|].
  destruct (String.eqb (nid n) (nid nd)); simpl; [reflexivity|by rewrite IH].
Qed.

Lemma elem_of_merge_into_first nodes nd m :
  NoDup (map nid nodes) ->
  m ∈ merge_into_first nodes nd ->
  (m ∈ nodes /\ nid m <> nid nd) \/
  (exists n, n ∈ nodes /\ nid n = nid nd /\ m = merged_node n nd).
Proof.
  induction nodes as [|n ns IH]; simpl; [by intros _ ?%not_elem_of_nil|].
  intros Hnd. apply NoDup_cons in Hnd as [Hn Hnd].
  destruct (String.eqb_spec (nid n) (nid nd)) as [He|Hne];
    intros [->|Hm]%elem_of_cons.
  - right. exists n. split; [left|done].
  - left. split; [by right|]. intros Hm'. apply Hn. rewrite He, <- Hm'.
    by apply list_elem_of_fmap_2.
  - left. split; [left|done].
  - destruct (IH Hnd Hm) as [[H1 H2]|(n' & H1 & H2 & H3)].
    + left. split; [by right|done].
    + right. exists n'. split; [by right|done].
Qed.

Lemma existsb_nid nodes k :
  existsb (fun n => String.eqb (nid n) k) nodes = bool_decide (k ∈ map nid nodes).
Proof.
  induction nodes as [|n ns IH]; simpl.
  - first [reflexivity|symmetry; apply bool_decide_eq_false; apply not_elem_of_nil].
  - rewrite IH. destruct (String.eqb_spec (nid n) k) as [<-|Hne]; simpl.
    + symmetry. apply bool_decide_eq_true_2. left.
    + case_bool_decide as H1; case_bool_decide as H2; try reflexivity.
      * exfalso. apply H2. by right.
      * exfalso. apply elem_of_cons in H2 as [?|?]; [congruence|done].
Qed.

Lemma ids_add_node nodes nd :
  map nid (add_node nodes nd) =
  if bool_decide (nid nd ∈ map nid nodes) then map nid nodes
  else map nid nodes ++ [nid nd].
Proof.
  unfold add_node. rewrite existsb_nid.
  case_bool_decide; [apply ids_merge_into_first|by rewrite map_app].
Qed.

Lemma add_node_nodup nodes nd :
  NoDup (map nid nodes) -> NoDup (map nid (add_node nodes nd)).
Proof.
  intros H. rewrite ids_add_node. case_bool_decide as Hin; [exact H|].
  apply NoDup_app. split_and!; [exact H| |apply NoDup_singleton].
  intros x Hx ->%list_elem_of_singleton. contradiction.
Qed.

Lemma elem_of_ids_add_node nodes nd k :
  k ∈ map nid (add_node nodes nd) <-> k ∈ map nid nodes \/ k = nid nd.
Proof.
  rewrite ids_add_node. case_bool_decide as Hin.
  - split; [by left|intros [?| ->]; done].
  - rewrite elem_of_app, list_elem_of_singleton. reflexivity.
Qed.

Lemma ids_add_edge edges e :
  map eid (add_edge edges e) =
  if existsb (fun e' => String.eqb (eid e') (eid e)) edges then map eid edges
  else map eid edges ++ [eid e].
Proof.
  unfold add_edge. destruct (existsb _ _); [reflexivity|by rewrite map_app].
Qed.

Lemma existsb_eid edges k :
  existsb (fun e' => String.eqb (eid e') k) edges = bool_decide (k ∈ map eid edges).
Proof.
  induction edges as [|e es IH]; simpl.
  - first [reflexivity|symmetry; apply bool_decide_eq_false; apply not_elem_of_nil].
  - rewrite IH. destruct (String.eqb_spec (eid e) k) as [<-|Hne]; simpl.
    + symmetry. apply bool_decide_eq_true_2. left.
    + case_bool_decide as H1; case_bool_decide as H2; try reflexivity.
      * exfalso. apply H2. by right.
      * exfalso. apply elem_of_cons in H2 as [?|?]; [congruence|done].
Qed.

Lemma add_edge_nodup edges e :
  NoDup (map eid edges) -> NoDup (map eid (add_edge edges e)).
Proof.
  intros H. rewrite ids_add_edge, existsb_eid. case_bool_decide as Hin; [exact H|].
  apply NoDup_app. split_and!; [exact H| |apply NoDup_singleton].
  intros x Hx ->%list_elem_of_singleton. contradiction.
Qed.

Lemma merged_in_merge_into_first nodes nd n :
  NoDup (map nid nodes) -> n ∈ nodes -> nid n = nid nd ->
  merged_node n nd ∈ merge_into_first nodes nd.
Proof.
  induction nodes as [|n0 ns IH]; [by intros _ ?%not_elem_of_nil|].
  intros Hnd Hn Hid. simpl in Hnd. apply NoDup_cons in Hnd as [Hn0 Hnd]. simpl.
  destruct (String.eqb_spec (nid n0) (nid nd)) as [He0|Hne0].
  - apply elem_of_cons in Hn as [->|Hn]; [left|].
    exfalso. apply Hn0. rewrite He0, <- Hid. by apply list_elem_of_fmap_2.
  - apply elem_of_cons in Hn as [->|Hn]; [congruence|]. right. by apply IH.
Qed.

Lemma elem_of_add_node nodes nd m :
  NoDup (map nid nodes) -> m ∈ add_node nodes nd ->
  (m ∈ nodes /\ nid m <> nid nd) \/
  (exists n, n ∈ nodes /\ nid n = nid nd /\ m = merged_node n nd) \/
  (m = nd /\ nid nd ∉ map nid nodes).
Proof.
  intros Hn Hm. unfold add_node in Hm. rewrite existsb_nid in Hm.
  case_bool_decide as Hin.
  - destruct (elem_of_merge_into_first nodes nd m Hn Hm) as [?|?]; [by left|by right; left].
  - apply elem_of_app in Hm as [Hm|Hm%list_elem_of_singleton].
    + left. split; [done|]. intros Heq. apply Hin. rewrite <- Heq.
      by apply list_elem_of_fmap_2.
    + subst m. by right; right.
Qed.

(** X1: Within one connector, [_add_node] keeps node ids unique; a node added
    under an id already listed leaves the listed node's type and name as
    they are and merges the new properties into it, the new values
    winning; [_add_edge] keeps edge ids unique and the first edge listed
    under an id. *)
Theorem connector_add_node_add_edge (nodes : list Node) (nd : Node)
    (edges : list Edge) (e : Edge) :
  NoDup (map nid nodes) -> NoDup (map eid edges) ->
  NoDup (map nid (add_node nodes nd)) /\
  (forall m, m ∈ add_node nodes nd ->
     (m ∈ nodes /\ nid m <> nid nd) \/
     (exists n, n ∈ nodes /\ nid n = nid nd /\ m = merged_node n nd) \/
     (m = nd /\ nid nd ∉ map nid nodes)) /\
  (forall n, n ∈ nodes -> nid n = nid nd -> merged_node n nd ∈ add_node nodes nd) /\
  NoDup (map eid (add_edge edges e)) /\
  (forall e', e' ∈ edges -> eid e' = eid e -> add_edge edges e = edges).
Proof.
  intros Hn He. split_and!.
  - by apply add_node_nodup.
  - intros m Hm. by apply elem_of_add_node.
  - intros n Hn' Hid. unfold add_node. rewrite existsb_nid.
    rewrite bool_decide_eq_true_2 by (rewrite <- Hid; by apply list_elem_of_fmap_2).
    by apply merged_in_merge_into_first.
  - by apply add_edge_nodup.
  - intros e' He' Hid. unfold add_edge. rewrite existsb_eid.
    rewrite bool_decide_eq_true_2; [reflexivity|]. rewrite <- Hid.
    by apply list_elem_of_fmap_2.
Qed.

(** ** [TeamsConnector.parse] *)

Lemma fold_left_inv {A B} (I : A -> Prop) (f : A -> B -> A) (xs : list B) (acc : A) :
  I acc -> (forall a x, x ∈ xs -> I a -> I (f a x)) -> I (fold_left f xs acc).
Proof.
  revert acc. induction xs as [|x xs IH]; intros acc Hacc Hf; simpl; [exact Hacc|].
  apply IH; [apply Hf; [left|exact Hacc]|].
  intros a y Hy. apply Hf. by right.
Qed.

Lemma add_node_keeps_ids nodes nd k :
  k ∈ map nid nodes -> k ∈ map nid (add_node nodes nd).
Proof. intros H. apply elem_of_ids_add_node. by left. Qed.

Lemma add_node_has_id nodes nd : nid nd ∈ map nid (add_node nodes nd).
Proof. apply elem_of_ids_add_node. by right. Qed.

Lemma add_node_forall_type nodes nd (P : string -> Prop) :
  NoDup (map nid nodes) -> Forall (fun n => P (ntype n)) nodes -> P (ntype nd) ->
  Forall (fun n => P (ntype n)) (add_node nodes nd).
Proof.
  intros Hnd Hall Hp. apply Forall_forall. intros m Hm.
  rewrite Forall_forall in Hall.
  destruct (elem_of_add_node nodes nd m Hnd Hm) as [[H1 _]|[(n & H1 & _ & ->)|[-> _]]].
  - by apply Hall.
  - by apply (Hall n).
  - exact Hp.
Qed.

Lemma teams_step_inv acc t : teams_inv acc -> teams_inv (teams_step acc t).
Proof.
  destruct acc as [nodes edges]. intros (H1 & H2 & H3 & H4). unfold teams_step.
  destruct (team_name t) as [name|]; [|split_and!; done].
  destruct (String.eqb name ""); [split_and!; done|].
  unfold teams_inv; simpl. split_and!.
  - by apply add_node_nodup.
  - apply (fold_left_inv (fun es => NoDup (map eid es))); [exact H2|].
    intros es item _ Hes. by apply add_edge_nodup.
  - by apply (add_node_forall_type _ _ (fun ty => ty = "team")).
  - apply (fold_left_inv (fun es => Forall (fun e => etype e = "owns" /\
             esource e ∈ map nid (add_node nodes (team_node name t))) es)).
    + eapply Forall_impl; [exact H4|]. intros e [He1 He2].
      split; [exact He1|by apply add_node_keeps_ids].
    + intros es item _ Hes. apply add_edge_forall; [exact Hes|].
      split; [reflexivity|]. apply (add_node_has_id nodes (team_node name t)).
Qed.

(** X2: [TeamsConnector.parse] returns nodes and edges with unique ids; every
    node is a team node, and every edge is an [owns] edge whose source is
    the id of one of the returned team nodes. *)
Theorem teams_parse_edges_from_team_nodes (teams : list TeamEntry) :
  NoDup (map nid (teams_parse teams).1) /\ NoDup (map eid (teams_parse teams).2) /\
  (forall n, n ∈ (teams_parse teams).1 -> ntype n = "team") /\
  (forall e, e ∈ (teams_parse teams).2 -> etype e = "owns" /\
     exists n, n ∈ (teams_parse teams).1 /\ nid n = esource e /\ ntype n = "team").
Proof.
  assert (H : teams_inv (teams_parse teams)).
  { unfold teams_parse. apply fold_left_inv.
    - split_and!; simpl; constructor.
    - intros a t _ Ha. by apply teams_step_inv. }
  unfold teams_inv in H. destruct H as (H1 & H2 & H3 & H4).
  rewrite Forall_forall in H3. rewrite Forall_forall in H4.
  split_and!; [exact H1|exact H2|exact H3|].
  intros e He. destruct (H4 e He) as [Ht Hs]. split; [exact Ht|].
  apply list_elem_of_fmap in Hs as (n & Hn & Hin). exists n. split_and!; auto.
Qed.

(** ** [KubernetesConnector.parse] *)

Lemma string_app_inj_r (p a b : string) : p +:+ a = p +:+ b -> a = b.
Proof. induction p as [|c p IH]; simpl; [done|]. intros H. injection H. exact IH. Qed.

Lemma ids_mark_service nodes name port :
  map nid (mark_service nodes name port) = map nid nodes.
Proof.
  induction nodes as [|n ns IH]; simpl; [reflexivity|].
  destruct (String.eqb (nname n) name); simpl; [reflexivity|by rewrite IH].
Qed.

Lemma types_mark_service nodes name port :
  map ntype (mark_service nodes name port) = map ntype nodes.
Proof.
  induction nodes as [|n ns IH]; simpl; [reflexivity|].
  destruct (String.eqb (nname n) name); simpl; [reflexivity|by rewrite IH].
Qed.

Lemma mark_service_no_match nodes name port :
  (forall n, n ∈ nodes -> nname n <> name) -> mark_service nodes name port = nodes.
Proof.
  induction nodes as [|n ns IH]; intros H; simpl; [reflexivity|].
  destruct (String.eqb_spec (nname n) name) as [He|Hne].
  - exfalso. apply (H n); [left|exact He].
  - f_equal. apply IH. intros m Hm. apply H. by right.
Qed.

Lemma deployment_edges_forall (P : Edge -> Prop) edges name cenv :
  Forall P edges ->
  (forall t, t <> name ->
     P (mkEdge ("edge:" +:+ name +:+ "-calls-" +:+ t) "calls"
               ("service:" +:+ name) ("service:" +:+ t)
               {["via" := Some (VStr "k8s_env")]})) ->
  Forall P (deployment_edges edges name cenv).
Proof.
  intros H Hnew. unfold deployment_edges. apply fold_forall; [|exact H].
  intros acc [key value] _ Hacc.
  destruct (contains "_URL" key && negb (String.eqb value "")); [|exact Hacc].
  destruct (extract_service_from_k8s_url value) as [t|]; [|exact Hacc].
  destruct (negb (String.eqb t "") && negb (String.eqb t name)) eqn:Ht; [|exact Hacc].
  apply add_edge_forall; [exact Hacc|]. apply Hnew.
  apply andb_prop in Ht as [_ Ht]. apply negb_true_iff in Ht.
  by apply String.eqb_neq.
Qed.

Lemma deployment_edges_nodup edges name cenv :
  NoDup (map eid edges) -> NoDup (map eid (deployment_edges edges name cenv)).
Proof.
  intros H. unfold deployment_edges.
  apply (fold_left_inv (fun es => NoDup (map eid es))); [exact H|].
  intros es [key value] _ Hes.
  destruct (contains "_URL" key && negb (String.eqb value "")); [|exact Hes].
  destruct (extract_service_from_k8s_url value) as [t|]; [|exact Hes].
  destruct (_ && _); [by apply add_edge_nodup|exact Hes].
Qed.

Lemma k8s_step_inv acc doc acc' :
  k8s_inv acc -> k8s_step acc doc = Ret acc' -> k8s_inv acc'.
Proof.
  destruct acc as [nodes edges]. intros (H1 & H2 & H3 & H4) Hs. unfold k8s_step in Hs.
  destruct doc as [d|name port|x|]; [| |discriminate|injection Hs as <-; split_and!; done].
  - destruct (String.eqb (k_name d) ""); injection Hs as <-; [split_and!; done|].
    unfold k8s_inv; simpl. split_and!.
    + by apply add_node_nodup.
    + by apply deployment_edges_nodup.
    + by apply (add_node_forall_type _ _ (fun ty => ty = "service")).
    + apply deployment_edges_forall.
      * eapply Forall_impl; [exact H4|]. intros e (He1 & He2 & He3).
        split_and!; [exact He1|by apply add_node_keeps_ids|exact He3].
      * intros t Ht. simpl. split_and!; [reflexivity| |].
        -- apply (add_node_has_id nodes (deployment_node d)).
        -- intros Heq. apply Ht. symmetry. exact (string_app_inj_r _ _ _ Heq).
  - destruct (String.eqb name ""); injection Hs as <-; [split_and!; done|].
    unfold k8s_inv; simpl. rewrite ids_mark_service. split_and!; [done|done| |done].
    apply Forall_forall. intros m Hm.
    assert (Hty : ntype m ∈ map ntype (mark_service nodes name port))
      by (by apply list_elem_of_fmap_2).
    rewrite types_mark_service in Hty.
    apply list_elem_of_fmap in Hty as (n & -> & Hn).
    rewrite Forall_forall in H3. by apply H3.
Qed.

Lemma k8s_fold_raise (docs : list K8sManifest) x :
  fold_left (fun acc doc => match acc with Ret a => k8s_step a doc | Raise x => Raise x end)
    docs (Raise x) = Raise x.
Proof. induction docs as [|d docs IH]; [reflexivity|exact IH]. Qed.

Lemma k8s_fold_inv (docs : list K8sManifest) acc r :
  (forall a, acc = Ret a -> k8s_inv a) ->
  fold_left (fun acc doc => match acc with Ret a => k8s_step a doc | Raise x => Raise x end)
    docs acc = Ret r -> k8s_inv r.
Proof.
  revert acc. induction docs as [|d docs IH]; intros acc Hacc; simpl.
  - intros ->. by apply Hacc.
  - apply IH. intros a' Ha'. destruct acc as [a|x]; [|discriminate].
    exact (k8s_step_inv a d a' (Hacc a eq_refl) Ha').
Qed.

(** X3: when [KubernetesConnector.parse] returns, its nodes are service nodes
    and its edges [calls] edges, each list with unique ids; every edge
    starts at the id of one of the returned nodes and no edge leads from a
    node to itself. *)
Theorem k8s_parse_edges_from_nodes (docs : list K8sManifest) nodes edges :
  k8s_parse docs = Ret (nodes, edges) ->
  NoDup (map nid nodes) /\ NoDup (map eid edges) /\
  (forall n, n ∈ nodes -> ntype n = "service") /\
  (forall e, e ∈ edges ->
     etype e = "calls" /\ esource e <> etarget e /\
     exists n, n ∈ nodes /\ nid n = esource e).
Proof.
  intros Hp.
  assert (H : k8s_inv (nodes, edges)).
  { unfold k8s_parse in Hp. refine (k8s_fold_inv _ _ _ _ Hp).
    intros a Ha. injection Ha as <-. split_and!; simpl; constructor. }
  unfold k8s_inv in H. simpl in H. destruct H as (H1 & H2 & H3 & H4).
  rewrite Forall_forall in H3. rewrite Forall_forall in H4.
  split_and!; [exact H1|exact H2|exact H3|].
  intros e He. destruct (H4 e He) as (Ht & Hs & Hl). split_and!; [exact Ht|exact Hl|].
  apply list_elem_of_fmap in Hs as (n & Hn & Hin). exists n. auto.
Qed.

(** X4: A well-formed Service document whose name no node parsed before it
    carries has no effect at all: the manifests parse as if it were absent,
    so a Service listed before its Deployment never marks that
    Deployment's node.  A Service (or Deployment) document on which the
    connector raises makes the whole [parse] raise, unless an earlier
    document already did. *)
Theorem k8s_service_before_deployment_ignored (pre post : list K8sManifest)
    (name : string) (port : option value) (x : string) :
  ((forall nodes edges, k8s_parse pre = Ret (nodes, edges) ->
      forall n, n ∈ nodes -> nname n <> name) ->
   k8s_parse (pre ++ KService name port :: post) = k8s_parse (pre ++ post)) /\
  k8s_parse (pre ++ KRaises x :: post)
    = match k8s_parse pre with Ret _ => Raise x | Raise y => Raise y end.
Proof.
  unfold k8s_parse. rewrite !fold_left_app. simpl.
  destruct (fold_left _ pre (Ret ([], []))) as [[nodes edges]|y] eqn:E.
  - split.
    + intros H. simpl.
      destruct (String.eqb name ""); [reflexivity|].
      rewrite mark_service_no_match by exact (H nodes edges eq_refl). reflexivity.
    + apply k8s_fold_raise.
  - split; [reflexivity|]. apply k8s_fold_raise.
Qed.

(** ** [DockerComposeConnector.parse] *)

Lemma compose_node_id py_int c nd :
  compose_node py_int c = Ret nd ->
  nid nd = compose_source_id (cs_name c, cs_config c).
Proof.
  unfold compose_node. destruct (port_property _ _ _); [|discriminate].
  intros [= <-]. reflexivity.
Qed.

Lemma compose_nodes_ids py_int svcs acc nodes :
  fold_left (fun acc c =>
    match acc with
    | Ret nodes => match compose_node py_int c with
                   | Ret nd => Ret (add_node nodes nd)
                   | Raise e => Raise e
                   end
    | Raise e => Raise e
    end) svcs acc = Ret nodes ->
  (exists a, acc = Ret a /\ (NoDup (map nid a) -> NoDup (map nid nodes)) /\
     (forall k, k ∈ map nid a -> k ∈ map nid nodes)) /\
  (forall c, c ∈ svcs -> compose_source_id (cs_name c, cs_config c) ∈ map nid nodes).
Proof.
  revert acc. induction svcs as [|c cs IH]; intros acc H; simpl in H.
  - subst acc. split; [by exists nodes|by intros ? ?%not_elem_of_nil].
  - destruct (IH _ H) as ([a' (Ha' & Hnd' & Hsub)] & Hall).
    destruct acc as [a|e]; [|discriminate].
    destruct (compose_node py_int c) as [nd|e] eqn:Hc; [|discriminate].
    injection Ha' as <-.
    split.
    + exists a. split_and!; [reflexivity| |].
      * intros Hnd. apply Hnd'. by apply add_node_nodup.
      * intros k Hk. apply Hsub. by apply add_node_keeps_ids.
    + intros c' [->|Hc']%elem_of_cons.
      * apply Hsub. rewrite <- (compose_node_id py_int c nd Hc). apply add_node_has_id.
      * by apply Hall.
Qed.

Lemma compose_service_edges_sources services edges nc :
  Forall (fun e => exists nc', nc' ∈ services /\ esource e = compose_source_id nc') edges ->
  nc ∈ services ->
  Forall (fun e => exists nc', nc' ∈ services /\ esource e = compose_source_id nc')
         (compose_service_edges services edges nc).
Proof.
  intros H Hin. destruct nc as [name config]. unfold compose_service_edges.
  apply fold_forall.
  - intros acc [key value] _ Hacc.
    destruct (contains "_URL" key && negb (String.eqb value "")); [|exact Hacc].
    destruct (extract_service_from_url value) as [t|]; [|exact Hacc].
    destruct (String.eqb t ""); [exact Hacc|].
    destruct (dict_get services t) as [c|]; [|exact Hacc].
    destruct (String.eqb _ _); [exact Hacc|].
    apply add_edge_forall; [exact Hacc|]. exists (name, config). by split.
  - apply fold_forall; [|exact H].
    intros acc dep _ Hacc. apply add_edge_forall; [exact Hacc|].
    exists (name, config). by split.
Qed.

Lemma compose_edges_sources services :
  Forall (fun e => exists nc, nc ∈ services /\ esource e = compose_source_id nc)
         (compose_edges services).
Proof.
  unfold compose_edges. apply fold_forall; [|constructor].
  intros acc nc Hnc Hacc. by apply compose_service_edges_sources.
Qed.

Lemma compose_edges_nodup services : NoDup (map eid (compose_edges services)).
Proof.
  unfold compose_edges.
  apply (fold_left_inv (fun es => NoDup (map eid es))); [constructor|].
  intros es [name config] _ Hes. unfold compose_service_edges.
  apply (fold_left_inv (fun es => NoDup (map eid es))).
  - apply (fold_left_inv (fun es => NoDup (map eid es))); [exact Hes|].
    intros es' dep _ H. by apply add_edge_nodup.
  - intros es' [key value] _ H.
    destruct (contains "_URL" key && negb (String.eqb value "")); [|exact H].
    destruct (extract_service_from_url value) as [t|]; [|exact H].
    destruct (String.eqb t ""); [exact H|].
    destruct (dict_get services t) as [c|]; [|exact H].
    destruct (String.eqb _ _); [exact H|by apply add_edge_nodup].
Qed.

(** X5: When [DockerComposeConnector.parse] returns, node ids and edge ids are
    unique and every edge starts at the id of one of the returned nodes
    (edge targets taken from [depends_on] need not be nodes). *)
Theorem compose_parse_edges_from_nodes (py_int : string -> outcome Z)
    (svcs : list ComposeService) (nodes : list Node) (edges : list Edge) :
  compose_parse py_int svcs = Ret (nodes, edges) ->
  NoDup (map nid nodes) /\ NoDup (map eid edges) /\
  forall e, e ∈ edges -> exists n, n ∈ nodes /\ nid n = esource e.
Proof.
  unfold compose_parse. destruct (compose_nodes py_int svcs) as [ns|x] eqn:Hn;
    [|discriminate].
  intros [= <- <-]. unfold compose_nodes in Hn.
  destruct (compose_nodes_ids py_int svcs (Ret []) ns Hn)
    as ([a (Ha & Hnd & _)] & Hall).
  injection Ha as <-. split_and!.
  - apply Hnd. constructor.
  - apply compose_edges_nodup.
  - intros e He. pose proof (compose_edges_sources (compose_services svcs)) as Hs.
    rewrite Forall_forall in Hs. destruct (Hs e He) as (nc & Hnc & Hsrc).
    unfold compose_services in Hnc. apply list_elem_of_fmap in Hnc as (c & -> & Hc).
    pose proof (Hall c Hc) as Hid. rewrite <- Hsrc in Hid.
    apply list_elem_of_fmap in Hid as (n & Hn' & Hin). exists n. auto.
Qed.

(** ** [DockerComposeConnector._parse_environment] *)

Lemma dict_get_env_fold items d k :
  dict_get (fold_left (fun acc item =>
              match split_eq item with
              | Some (k', v) => dict_set acc k' v
              | None => acc
              end) items d) k =
  match env_last items k with Some v => Some v | None => dict_get d k end.
Proof.
  revert d. induction items as [|it its IH]; intros d; simpl; [reflexivity|].
  rewrite IH. destruct (env_last its k); [reflexivity|].
  destruct (split_eq it) as [[k' v]|]; [|reflexivity].
  rewrite dict_get_set. destruct (String.eqb k k'); reflexivity.
Qed.

Lemma split_eq_first a b :
  contains "=" a = false -> split_eq (a +:+ String "=" b) = Some (a, b).
Proof.
  induction a as [|c a IH]; simpl; intros H.
  - first [reflexivity|rewrite bool_decide_eq_true_2; reflexivity].
  - apply orb_false_iff in H as [H1 H2].
    rewrite bool_decide_eq_false_2.
    + by rewrite IH.
    + intros ->. simpl in H1.
      first [discriminate|rewrite bool_decide_eq_true_2 in H1; [discriminate|reflexivity]].
Qed.

Lemma split_eq_none s : contains "=" s = false -> split_eq s = None.
Proof.
  induction s as [|c s IH]; simpl; intros H; [reflexivity|].
  apply orb_false_iff in H as [H1 H2].
  rewrite bool_decide_eq_false_2.
  - by rewrite IH.
  - intros ->. simpl in H1.
      first [discriminate|rewrite bool_decide_eq_true_2 in H1; [discriminate|reflexivity]].
Qed.

Lemma env_last_app_last items a b :
  contains "=" a = false -> env_last (items ++ [a +:+ String "=" b]) a = Some b.
Proof.
  intros Ha. induction items as [|it its IH]; simpl.
  - rewrite split_eq_first by exact Ha. rewrite String.eqb_refl. reflexivity.
  - by rewrite IH.
Qed.

(** X6: A list-form [environment] becomes a dict in which each key holds the
    text after the first [=] of the LAST item naming it; an item without
    [=] is skipped. *)
Theorem parse_environment_last_wins (items : list string) (k a b : string) :
  contains "=" a = false ->
  dict_get (parse_environment (EnvList items)) k = env_last items k /\
  dict_get (parse_environment (EnvList (items ++ [a +:+ String "=" b]))) a = Some b /\
  (forall s, contains "=" s = false ->
     parse_environment (EnvList (items ++ [s])) = parse_environment (EnvList items)).
Proof.
  intros Ha. split_and!.
  - simpl. rewrite dict_get_env_fold. destruct (env_last items k); reflexivity.
  - simpl. rewrite dict_get_env_fold, env_last_app_last by exact Ha. reflexivity.
  - intros s Hs. simpl. rewrite fold_left_app. simpl.
    rewrite split_eq_none by exact Hs. reflexivity.
Qed.

(** ** [_extract_service_from_url] and [_extract_service_from_k8s_url] *)

Lemma span_not_chars excl s run rest :
  span_not excl s = (run, rest) ->
  Forall (fun c => c ∉ excl) (String.list_ascii_of_string run).
Proof.
  revert run rest. induction s as [|c s IH]; intros run rest; simpl.
  - intros [= <- _]. constructor.
  - case_bool_decide as Hc.
    + intros [= <- _]. constructor.
    + destruct (span_not excl s) as [r0 t0] eqn:E. intros [= <- _].
      simpl. constructor; [exact Hc|exact (IH _ _ eq_refl)].
Qed.

Lemma match_at_chars lead excl stop s g :
  match_at lead excl stop s = Some g ->
  g <> "" /\ Forall (fun c => c ∉ excl) (String.list_ascii_of_string g).
Proof.
  unfold match_at. destruct (strip_prefix lead s) as [rest|]; [|discriminate].
  destruct (span_not excl rest) as [run after] eqn:E.
  pose proof (span_not_chars _ _ _ _ E) as Hc.
  destruct run as [|c0 run']; [discriminate|].
  destruct stop as [cs|].
  - destruct after as [|c1 after']; [discriminate|].
    case_bool_decide; [|discriminate]. intros [= <-]. by split.
  - intros [= <-]. by split.
Qed.

Lemma re_search_chars lead excl stop s g :
  re_search lead excl stop s = Some g ->
  g <> "" /\ Forall (fun c => c ∉ excl) (String.list_ascii_of_string g).
Proof.
  induction s as [|c s IH]; simpl;
    destruct (match_at lead excl stop _) as [g'|] eqn:E;
    try (intros [= <-]; exact (match_at_chars _ _ _ _ _ E)); try discriminate.
  exact IH.
Qed.

Lemma first_some_elem {A} (l : list (option A)) x :
  first_some l = Some x -> Some x ∈ l.
Proof.
  induction l as [|[y|] l IH]; simpl; [discriminate| |].
  - intros [= ->]. left.
  - intros H. right. by apply IH.
Qed.

Lemma strip_prefix_app p s : strip_prefix p (p +:+ s) = Some s.
Proof.
  induction p as [|c p IH]; simpl; [reflexivity|].
  rewrite bool_decide_eq_true_2 by reflexivity. exact IH.
Qed.

Lemma span_not_host excl host c rest :
  Forall (fun c => c ∉ excl) (String.list_ascii_of_string host) -> c ∈ excl ->
  span_not excl (host +:+ String c rest) = (host, String c rest).
Proof.
  induction host as [|c0 host IH]; simpl; intros Hh Hc.
  - by rewrite bool_decide_eq_true_2.
  - apply Forall_cons in Hh as [H0 Hh].
    rewrite bool_decide_eq_false_2 by exact H0. by rewrite IH.
Qed.

Lemma re_search_skip_scheme excl stop scheme s :
  contains ":" scheme = false ->
  re_search "://" excl stop (scheme +:+ s) = re_search "://" excl stop s.
Proof.
  induction scheme as [|c scheme IH]; simpl; intros H; [reflexivity|].
  apply orb_false_iff in H as [H1 H2].
  assert (Hc : c <> ":"%char).
  { intros ->. simpl in H1.
    first [discriminate|rewrite bool_decide_eq_true_2 in H1; [discriminate|reflexivity]]. }
  unfold match_at at 1. simpl. rewrite bool_decide_eq_false_2 by (intros ?; apply Hc; done).
  by apply IH.
Qed.

Lemma re_search_here lead excl stop s g :
  match_at lead excl stop s = Some g -> re_search lead excl stop s = Some g.
Proof. intros H. destruct s; simpl; rewrite H; reflexivity. Qed.

Lemma match_at_host lead excl c stop host rest :
  host <> "" -> Forall (fun c => c ∉ excl) (String.list_ascii_of_string host) ->
  c ∈ excl -> c ∈ stop ->
  match_at lead excl (Some stop) (lead +:+ host +:+ String c rest) = Some host.
Proof.
  intros Hh Hc Hce Hcs. unfold match_at. rewrite strip_prefix_app.
  rewrite span_not_host by assumption.
  destruct host as [|c0 host']; [contradiction|].
  rewrite bool_decide_eq_true_2 by exact Hcs. reflexivity.
Qed.

(** X7: The compose connector's service name read from a URL is never empty
    and never holds [:], [/] or [@]; for [scheme://X:rest] with a
    colon-free scheme it is [X], the text between [://] and the next
    colon, so in a URL with credentials it is the user name. *)
Theorem extract_service_from_url_host (url t scheme host rest : string) :
  (extract_service_from_url url = Some t ->
   t <> "" /\ Forall (fun c => c ∉ [":"%char; "/"%char; "@"%char])
                     (String.list_ascii_of_string t)) /\
  (contains ":" scheme = false -> host <> "" ->
   Forall (fun c => c ∉ [":"%char; "/"%char; "@"%char]) (String.list_ascii_of_string host) ->
   extract_service_from_url (scheme +:+ "://" +:+ host +:+ String ":" rest) = Some host).
Proof.
  split.
  - unfold extract_service_from_url. intros H%first_some_elem.
    repeat (apply elem_of_cons in H as [H|H];
      [symmetry in H; exact (re_search_chars _ _ _ _ _ H)|]).
    by apply not_elem_of_nil in H.
  - intros Hs Hh Hc. unfold extract_service_from_url.
    rewrite re_search_skip_scheme by exact Hs.
    erewrite re_search_here; [reflexivity|].
    apply match_at_host; [exact Hh|exact Hc|by left|by left].
Qed.

(** X8: The manifest connector's service name read from a URL is never empty
    and never holds a dot; for [http://X.rest] with a dot-free [X] it is
    [X], even when [X] holds a port or a path. *)
Theorem extract_service_from_k8s_url_host (url t host rest : string) :
  (extract_service_from_k8s_url url = Some t ->
   t <> "" /\ Forall (fun c => c ∉ ["."%char]) (String.list_ascii_of_string t)) /\
  (host <> "" -> Forall (fun c => c ∉ ["."%char]) (String.list_ascii_of_string host) ->
   extract_service_from_k8s_url ("http://" +:+ host +:+ String "." rest) = Some host).
Proof.
  split.
  - unfold extract_service_from_k8s_url. intros H%first_some_elem.
    apply elem_of_cons in H as [H|H];
      [symmetry in H; exact (re_search_chars _ _ _ _ _ H)|].
    apply elem_of_cons in H as [H|H]; [|by apply not_elem_of_nil in H].
    symmetry in H. apply re_search_chars in H as [Hne Hc]. split; [exact Hne|].
    eapply Forall_impl; [exact Hc|]. intros c Hc' Hd. apply Hc'.
    apply elem_of_cons in Hd as [->|Hd]; [right; right; left|by apply not_elem_of_nil in Hd].
  - intros Hh Hc. unfold extract_service_from_k8s_url.
    erewrite re_search_here; [reflexivity|].
    apply match_at_host; [exact Hh|exact Hc|by left|by left].
Qed.

(** *** Deleting a node *)

Lemma has_id_unique n i j : has_id n i = true -> has_id n j = true -> i = j.
Proof.
  unfold has_id. intros Hi%bool_decide_eq_true Hj%bool_decide_eq_true.
  rewrite Hi in Hj. by injection Hj.
Qed.

Lemma lookup_filter_shift (P : props -> bool) (l : list props) (k : nat) :
  match l !! k with Some n => P n = false | None => True end ->
  filter (fun n => P n = false) l !! length (filter (fun n => P n = false) (take k l))
    = l !! k.
Proof.
  revert k. induction l as [|x l IH]; intros k Hk.
  - rewrite take_nil. reflexivity.
  - destruct k as [|k]; simpl in Hk |- *.
    + rewrite filter_cons_True by exact Hk. reflexivity.
    + rewrite !filter_cons. case_decide as Hx; simpl; apply IH; exact Hk.
Qed.

Lemma lookup_delete_shift s i k :
  deleted_at s i k = false ->
  filter (fun n => has_id n i = false) (snodes s) !! shift s i k = snodes s !! k.
Proof.
  unfold deleted_at, shift. intros Hk. apply lookup_filter_shift.
  destruct (snodes s !! k); [exact Hk|exact I].
Qed.

Lemma get_node_filter_other (l : list props) i j :
  j <> i ->
  head (filter (fun n => has_id n j = true) (filter (fun n => has_id n i = false) l))
    = head (filter (fun n => has_id n j = true) l).
Proof.
  intros Hji. induction l as [|n l IH]; [reflexivity|].
  rewrite (filter_cons (fun n => has_id n i = false)).
  case_decide as Hi.
  - rewrite !filter_cons. case_decide; [reflexivity|exact IH].
  - rewrite (filter_cons (fun n => has_id n j = true)). case_decide as Hj; [|exact IH].
    apply not_false_is_true in Hi. by pose proof (has_id_unique _ _ _ Hj Hi).
Qed.

Lemma delete_node_found s i :
  (delete_node s i).2 = true <-> is_Some (get_node s i).
Proof.
  unfold delete_node. simpl. rewrite bool_decide_eq_true. split.
  - intros Hl. destruct (node_idxs s i) as [|j l] eqn:E; [simpl in Hl; lia|].
    assert (Hj : j ∈ node_idxs s i) by (rewrite E; left).
    apply elem_of_node_idxs in Hj as (n & Hn & Hid).
    destruct (get_node s i) eqn:Hg; [eauto|].
    apply get_node_none with (n := n) in Hg; [congruence|].
    by eapply list_elem_of_lookup_2.
  - intros [n Hg]. destruct (node_idxs s i) as [|j l] eqn:E; [|simpl; lia].
    exfalso. pose proof (get_node_some _ _ _ Hg) as Hid.
    unfold get_node in Hg. apply head_Some_elem_of in Hg.
    apply list_elem_of_filter in Hg as [_ Hin].
    apply list_elem_of_lookup_1 in Hin as [j Hj].
    assert (Hj' : j ∈ node_idxs s i) by (apply elem_of_node_idxs; eauto).
    rewrite E in Hj'. by apply not_elem_of_nil in Hj'.
Qed.

Lemma has_id_false_iff n i : has_id n i = false <-> n !! "id" <> Some (VStr i).
Proof. unfold has_id. rewrite bool_decide_eq_false. tauto. Qed.

Lemma get_all_edges_delete_node s i :
  get_all_edges (delete_node s i).1 =
  filter (fun r => rec_source r <> Some (VStr i) /\ rec_target r <> Some (VStr i))
         (get_all_edges s).
Proof.
  unfold get_all_edges, delete_node. cbn [srels snodes fst].
  induction (srels s) as [|r rs IH]; [reflexivity|].
  rewrite filter_cons. case_decide as Hk.
  - rewrite map_cons. simpl. rewrite !lookup_delete_shift.
    2,3: apply orb_false_iff in Hk; tauto.
    apply orb_false_iff in Hk as [Ha Hb]. unfold deleted_at in Ha, Hb.
    destruct (snodes s !! rsrc r) as [a|]; [|exact IH].
    destruct (snodes s !! rtgt r) as [b|]; [|exact IH].
    rewrite filter_cons_True; [f_equal; exact IH|].
    simpl. split; apply has_id_false_iff; assumption.
  - simpl. apply not_false_is_true, orb_true_iff in Hk.
    unfold deleted_at in Hk.
    destruct (snodes s !! rsrc r) as [a|]; [|destruct Hk as [Hk|Hk]; [discriminate|]].
    + destruct (snodes s !! rtgt r) as [b|]; [|exact IH].
      rewrite filter_cons_False; [exact IH|]. simpl.
      unfold has_id in Hk. rewrite !bool_decide_eq_true in Hk. tauto.
    + exact IH.
Qed.

(** X9: [GraphStorage.delete_node] reports whether a node was stored under the
    id; afterwards no node has that id, every other id reads back the
    same node, and the edge listing loses exactly the records whose source
    or target is the deleted id (DETACH DELETE), the others keeping their
    order. *)
Theorem delete_node_detaches (s : store) (i j : string) :
  ((delete_node s i).2 = true <-> is_Some (get_node s i)) /\
  get_node (delete_node s i).1 i = None /\
  (j <> i -> get_node (delete_node s i).1 j = get_node s j) /\
  get_all_edges (delete_node s i).1 =
  filter (fun r => rec_source r <> Some (VStr i) /\ rec_target r <> Some (VStr i))
         (get_all_edges s).
Proof.
  split_and!.
  - apply delete_node_found.
  - apply get_node_none. intros n Hn. simpl in Hn.
    by apply list_elem_of_filter in Hn as [Hn _].
  - intros Hji. unfold get_node. simpl. by apply get_node_filter_other.
  - apply get_all_edges_delete_node.
Qed.

(** *** Node counts by type *)

Lemma filter_length_or {A} (P Q : A -> Prop) `{forall x, Decision (P x)}
    `{forall x, Decision (Q x)} (l : list A) :
  (forall x, P x -> Q x -> False) ->
  length (filter P l) + length (filter Q l) = length (filter (fun x => P x \/ Q x) l).
Proof.
  intros Hd. induction l as [|x l IH]; [reflexivity|].
  rewrite !filter_cons. repeat case_decide; simpl; try lia; naive_solver.
Qed.

Lemma filter_all {A} (P : A -> Prop) `{forall x, Decision (P x)} (l : list A) :
  (forall x, x ∈ l -> P x) -> filter P l = l.
Proof.
  induction l as [|x l IH]; intros Hl; [reflexivity|].
  rewrite filter_cons_True by (apply Hl; left). f_equal.
  apply IH. intros y Hy. apply Hl. by right.
Qed.

Lemma sum_counts {K} `{EqDecision K} (f : props -> K) (ks : list K) (l : list props) :
  NoDup ks ->
  sum_list (map (fun t => length (filter (fun n => f n = t) l)) ks)
    = length (filter (fun n => f n ∈ ks) l).
Proof.
  induction 1 as [|k ks Hk Hnd IH]; simpl.
  - rewrite (list_filter_iff _ (fun _ => False)); [|intros; split; [|done];
      intros Hf; by apply not_elem_of_nil in Hf].
    induction l as [|x l IHl]; [done|]. rewrite filter_cons_False; auto.
  - rewrite IH, filter_length_or.
    + f_equal. apply list_filter_iff. intros x. rewrite elem_of_cons. tauto.
    + intros x -> Hx. contradiction.
Qed.

Lemma py_key_eq_sym a b : py_key_eq a b = py_key_eq b a.
Proof.
  destruct a as [[x|x|x]|]; destruct b as [[y|y|y]|]; simpl; try reflexivity.
  - apply String.eqb_sym.
  - apply Z.eqb_sym.
  - destruct x, y; reflexivity.
Qed.

Lemma py_key_eq_str a b :
  str_or_null a = true -> str_or_null b = true -> py_key_eq a b = true -> a = b.
Proof.
  destruct a as [[x|x|x]|]; destruct b as [[y|y|y]|]; simpl; try discriminate; try reflexivity.
  intros _ _ H. apply String.eqb_eq in H. by subst.
Qed.

Lemma py_dict_assign_keys {V} (d : list (option value * V)) k v :
  map fst (py_dict_assign d k v)
  = if existsb (py_key_eq k) (map fst d) then map fst d else map fst d ++ [k].
Proof.
  induction d as [|[k' v'] d IH]; simpl; [reflexivity|].
  destruct (py_key_eq k k'); simpl; [reflexivity|].
  rewrite IH. destruct (existsb _ _); reflexivity.
Qed.

Lemma py_dict_assign_fresh {V} (d : list (option value * V)) k v :
  existsb (py_key_eq k) (map fst d) = false -> py_dict_assign d k v = d ++ [(k, v)].
Proof.
  induction d as [|[k' v'] d IH]; simpl; [reflexivity|].
  destruct (py_key_eq k k'); simpl; [discriminate|].
  intros H. f_equal. exact (IH H).
Qed.

Lemma py_distinct_snoc ks k :
  py_distinct (ks ++ [k])
  = py_distinct ks && forallb (fun k' => negb (py_key_eq k' k)) ks.
Proof.
  induction ks as [|a ks IH]; simpl; [reflexivity|].
  rewrite forallb_app, IH. simpl.
  destruct (forallb (fun k' => negb (py_key_eq a k')) ks), (py_distinct ks),
    (py_key_eq a k), (forallb (fun k' => negb (py_key_eq k' k)) ks); reflexivity.
Qed.

Lemma existsb_key_forallb k ks :
  existsb (py_key_eq k) ks = false -> forallb (fun k' => negb (py_key_eq k' k)) ks = true.
Proof.
  induction ks as [|a ks IH]; simpl; [reflexivity|]. intros H.
  rewrite (py_key_eq_sym a k). destruct (py_key_eq k a); simpl in H |- *; [discriminate|exact (IH H)].
Qed.

Lemma py_dict_assign_distinct {V} (d : list (option value * V)) k v :
  py_distinct (map fst d) = true -> py_distinct (map fst (py_dict_assign d k v)) = true.
Proof.
  intros H. rewrite py_dict_assign_keys.
  destruct (existsb (py_key_eq k) (map fst d)) eqn:E; [exact H|].
  rewrite py_distinct_snoc, H. exact (existsb_key_forallb _ _ E).
Qed.

Lemma py_dict_assign_pos (d : list (option value * nat)) k v :
  Forall (fun kv => 0 < kv.2) d -> 0 < v -> Forall (fun kv => 0 < kv.2) (py_dict_assign d k v).
Proof.
  induction d as [|[k' v'] d IH]; intros Hd Hv; simpl; [by constructor|].
  apply Forall_cons in Hd as [Hk Hd].
  destruct (py_key_eq k k'); constructor; auto.
Qed.

Lemma py_dict_assign_sum (d : list (option value * nat)) k v :
  sum_list (map snd (py_dict_assign d k v)) <= sum_list (map snd d) + v.
Proof.
  induction d as [|[k' v'] d IH]; simpl; [lia|].
  destruct (py_key_eq k k'); simpl; lia.
Qed.

Lemma fold_assign_sum (rows d : list (option value * nat)) :
  sum_list (map snd (fold_left (fun d r => py_dict_assign d r.1 r.2) rows d))
    <= sum_list (map snd d) + sum_list (map snd rows).
Proof.
  revert d. induction rows as [|r rows IH]; intros d; simpl; [lia|].
  specialize (IH (py_dict_assign d r.1 r.2)).
  pose proof (py_dict_assign_sum d r.1 r.2). lia.
Qed.

Lemma fold_assign_fresh (rows d : list (option value * nat)) :
  Forall (fun r => str_or_null r.1 = true) (d ++ rows) ->
  NoDup (map fst (d ++ rows)) ->
  fold_left (fun d r => py_dict_assign d r.1 r.2) rows d = d ++ rows.
Proof.
  revert d. induction rows as [|r rows IH]; intros d Hs Hnd; simpl; [by rewrite app_nil_r|].
  rewrite py_dict_assign_fresh.
  - destruct r as [k v]. rewrite IH; [by rewrite <- app_assoc| |];
      rewrite <- app_assoc; assumption.
  - apply not_true_iff_false. intros Hex. apply existsb_exists in Hex as [k' [Hk' Heq]].
    apply list_elem_of_In in Hk'.
    apply list_elem_of_fmap in Hk' as [[k v] [-> Hkv]].
    rewrite Forall_app, Forall_cons in Hs. destruct Hs as (Hd & Hr & _).
    rewrite Forall_forall in Hd.
    apply py_key_eq_str in Heq; [|exact Hr|exact (Hd _ Hkv)].
    rewrite map_app in Hnd. simpl in Hnd. apply NoDup_app in Hnd as (_ & Hdis & _).
    apply (Hdis r.1).
    + apply list_elem_of_fmap. exists (k, v). split; [exact Heq|exact Hkv].
    + left.
Qed.

Lemma type_count_rows_keys s :
  map fst (type_count_rows s) = remove_dups (map (fun n => n !! "type") (snodes s)).
Proof.
  unfold type_count_rows. rewrite map_map. erewrite map_ext; [apply map_id|].
  intros; reflexivity.
Qed.

Lemma type_count_rows_sum s :
  sum_list (map snd (type_count_rows s)) = length (snodes s).
Proof.
  unfold type_count_rows. rewrite map_map. simpl. rewrite sum_counts by apply NoDup_remove_dups.
  f_equal. rewrite filter_all; [reflexivity|].
  intros n Hn. apply elem_of_remove_dups. by apply list_elem_of_fmap_2.
Qed.

Lemma type_count_rows_pos s r : r ∈ type_count_rows s -> 0 < r.2.
Proof.
  unfold type_count_rows. intros Hin. apply list_elem_of_fmap in Hin as [t' [-> Ht']].
  simpl. apply elem_of_remove_dups, list_elem_of_fmap in Ht' as [n [-> Hn]].
  destruct (filter (fun m => m !! "type" = n !! "type") (snodes s)) eqn:E;
    [|simpl; lia].
  exfalso. assert (Hf : n ∈ filter (fun m => m !! "type" = n !! "type") (snodes s)).
  { by apply list_elem_of_filter. }
  rewrite E in Hf. by apply not_elem_of_nil in Hf.
Qed.

(** X10: [QueryEngine.get_graph_stats]: no two keys of [nodes_by_type]
    compare equal in Python, every count is positive, and the counts add up
    to at most the node total: a type [1] and a type [True] (or [0] and
    [False]) share one entry, which keeps the later count.  When every
    node's type is a string or absent, the counts add up to the node
    total. *)
Theorem get_graph_stats_counts (s : store) :
  py_distinct (map fst (nodes_by_type (get_graph_stats s))) = true /\
  (forall t c, (t, c) ∈ nodes_by_type (get_graph_stats s) -> 0 < c) /\
  sum_list (map snd (nodes_by_type (get_graph_stats s))) <= total_nodes (get_graph_stats s) /\
  (Forall (fun n => str_or_null (n !! "type") = true) (snodes s) ->
   sum_list (map snd (nodes_by_type (get_graph_stats s))) = total_nodes (get_graph_stats s)).
Proof.
  unfold get_graph_stats. cbn [nodes_by_type total_nodes]. split_and!.
  - apply (fold_left_inv (fun d => py_distinct (map fst d) = true)); [reflexivity|].
    intros d r _ Hd. by apply py_dict_assign_distinct.
  - intros t c Hin.
    assert (Hp : Forall (fun kv => 0 < kv.2)
                   (fold_left (fun d r => py_dict_assign d r.1 r.2) (type_count_rows s) [])).
    { apply fold_left_inv; [constructor|].
      intros d r Hr Hd. apply py_dict_assign_pos; [exact Hd|exact (type_count_rows_pos s r Hr)]. }
    rewrite Forall_forall in Hp. exact (Hp _ Hin).
  - pose proof (fold_assign_sum (type_count_rows s) []) as H. simpl in H.
    rewrite type_count_rows_sum in H. exact H.
  - intros Hstr. rewrite fold_assign_fresh; simpl.
    + apply type_count_rows_sum.
    + apply Forall_forall. intros r Hr.
      apply (list_elem_of_fmap_2 fst) in Hr. rewrite type_count_rows_keys in Hr.
      apply elem_of_remove_dups, list_elem_of_fmap in Hr as [n [Heq Hn]].
      rewrite Forall_forall in Hstr. rewrite Heq. exact (Hstr n Hn).
    + rewrite type_count_rows_keys. apply NoDup_remove_dups.
Qed.

(** *** Searching nodes *)

Lemma str_prefix_refl s : str_prefix s s = true.
Proof.
  induction s as [|c s IH]; [reflexivity|]. simpl.
  rewrite bool_decide_eq_true_2 by reflexivity. exact IH.
Qed.

Lemma contains_refl s : contains s s = true.
Proof. destruct s; simpl; [reflexivity|]. rewrite bool_decide_eq_true_2, str_prefix_refl; done. Qed.

Lemma search_rows_spec (ns : list props) (q : string) :
  (Forall (fun n => search_hit q n = true \/ search_safe n = true) ns ->
   search_rows ns q = Ret (filter (fun n => search_hit q n = true) ns)) /\
  ((exists n, n ∈ ns /\ search_hit q n = false /\ search_safe n = false) ->
   exists x, search_rows ns q = Raise x).
Proof.
  induction ns as [|n ns [IH1 IH2]]; simpl.
  - split; [reflexivity|]. intros (m & Hm & _). by apply not_elem_of_nil in Hm.
  - split.
    + intros Hf. apply Forall_cons in Hf as [Hn Hf]. rewrite (IH1 Hf), filter_cons.
      unfold search_safe, search_hit, str_or_null in *.
      search_cases n; simpl in Hn |- *; try reflexivity;
        destruct Hn as [Hn|Hn]; discriminate.
    + intros (m & Hm & Hhit & Hok). apply elem_of_cons in Hm as [->|Hm].
      * unfold search_safe, search_hit, str_or_null in *.
        search_cases n; simpl in Hhit, Hok |- *; try discriminate; eauto.
      * destruct (IH2 (ex_intro _ m (conj Hm (conj Hhit Hok)))) as [x Hx].
        destruct (cypher_or_err _ _); rewrite ?Hx; eauto.
Qed.

Lemma search_rows_sub (ns : list props) (q : string) l :
  search_rows ns q = Ret l -> forall n, n ∈ l -> n ∈ ns.
Proof.
  revert l. induction ns as [|m ns IH]; simpl; intros l Hl n Hn.
  - injection Hl as <-. by apply not_elem_of_nil in Hn.
  - destruct (cypher_or_err _ _); [|discriminate].
    destruct (search_rows ns q) as [l'|] eqn:E; [|discriminate].
    injection Hl as <-. case_bool_decide.
    + apply elem_of_cons in Hn as [->|Hn]; [left|right; by eapply IH].
    + right. by eapply IH.
Qed.

(** X11: [QueryEngine.search_nodes] fails with a type error exactly when some
    stored node has a name or id that is neither a string nor absent and
    has no string name or id containing the query (case-insensitively);
    otherwise it returns, in store order, the nodes whose string name or
    id contains the query, so a node is found by its exact id or name. *)
Theorem search_nodes_type_error_or_filter (s : store) (q : string) (n : props) :
  (Forall (fun n => search_hit q n = true \/ search_safe n = true) (snodes s) ->
   search_nodes s q = Ret (filter (fun n => search_hit q n = true) (snodes s))) /\
  ((exists m, m ∈ snodes s /\ search_hit q m = false /\ search_safe m = false) ->
   exists x, search_nodes s q = Raise x) /\
  (Forall (fun n => search_hit q n = true \/ search_safe n = true) (snodes s) -> n ∈ snodes s ->
   n !! "id" = Some (VStr q) \/ n !! "name" = Some (VStr q) ->
   exists l, search_nodes s q = Ret l /\ n ∈ l).
Proof.
  unfold search_nodes. destruct (search_rows_spec (snodes s) q) as [H1 H2].
  split_and!; [exact H1|exact H2|].
  intros Hf Hn Hq. exists (filter (fun n => search_hit q n = true) (snodes s)).
  split; [exact (H1 Hf)|]. apply list_elem_of_filter. split; [|exact Hn].
  unfold search_hit. destruct Hq as [-> | ->]; rewrite contains_refl;
    [apply orb_true_r|reflexivity].
Qed.

(** *** Owners and owned nodes *)

Lemma elem_of_owned_by_team s name o :
  o ∈ get_nodes_owned_by_team s name <->
  exists r team, r ∈ srels s /\ snodes s !! rsrc r = Some team /\
    snodes s !! rtgt r = Some o /\
    team !! "id" = Some (VStr ("team:" +:+ name)) /\
    rprops r !! "type" = Some (VStr "owns").
Proof.
  unfold get_nodes_owned_by_team. rewrite list_elem_of_omap. split.
  - intros (r & Hr & Hf).
    destruct (snodes s !! rsrc r) as [team|] eqn:Ht; [|discriminate].
    destruct (snodes s !! rtgt r) as [tg|] eqn:Hg; [|discriminate].
    case_bool_decide as Hc; [|discriminate]. injection Hf as <-.
    destruct Hc. exists r, team. auto.
  - intros (r & team & Hr & Ht & Hg & H1 & H2). exists r. split; [done|].
    rewrite Ht, Hg, bool_decide_eq_true_2; auto.
Qed.

Lemma get_owner_first_owner_spec s x :
  (forall t, get_owner s x = Some t -> exists r, owns_link s x r t) /\
  (get_owner s x = None <-> forall r t, ~ owns_link s x r t).
Proof.
  unfold get_owner, get_owner_v. split.
  - intros t Ht. apply elem_of_owner_rows.
    destruct (owner_rows s (Some (VStr x))) as [|t' rows]; [discriminate|].
    injection Ht as ->. left.
  - split.
    + intros Hn r t Hl. assert (Hin : t ∈ owner_rows s (Some (VStr x))).
      { apply elem_of_owner_rows. eauto. }
      destruct (owner_rows s (Some (VStr x))); [|discriminate].
      by apply not_elem_of_nil in Hin.
    + intros Hno. destruct (owner_rows s (Some (VStr x))) as [|t rows] eqn:E;
        [reflexivity|].
      exfalso. assert (Hin : t ∈ owner_rows s (Some (VStr x))) by (rewrite E; left).
      apply elem_of_owner_rows in Hin as [r Hr]. by apply (Hno r t).
Qed.

(** X12: [QueryEngine.get_owner] and [QueryEngine.get_nodes_owned_by_team]
    agree: the owner found for an id, when its id is [team:N], lists the
    node with that id among the nodes owned by team [N]; conversely a
    node owned by team [N] has an owner, provided every node stored under
    the id [team:N] has type [team]. *)
Theorem get_owner_owned_by_team (s : store) (i name : string) (t : props) :
  (get_owner s i = Some t -> t !! "id" = Some (VStr ("team:" +:+ name)) ->
   exists o, o ∈ get_nodes_owned_by_team s name /\ o !! "id" = Some (VStr i)) /\
  ((forall n, n ∈ snodes s -> n !! "id" = Some (VStr ("team:" +:+ name)) ->
              n !! "type" = Some (VStr "team")) ->
   (exists o, o ∈ get_nodes_owned_by_team s name /\ o !! "id" = Some (VStr i)) ->
   is_Some (get_owner s i)).
Proof.
  destruct (get_owner_first_owner_spec s i) as [Hown Hnone]. split.
  - intros Ht Hid. destruct (Hown t Ht) as (r & Hr & Hsrc & _ & Hty & tg & Htg & Htid).
    exists tg. split; [|exact Htid].
    apply elem_of_owned_by_team. exists r, t. auto.
  - intros Hteam (o & Ho & Hoid).
    apply elem_of_owned_by_team in Ho as (r & team & Hr & Ht & Hg & Hid & Hty).
    destruct (get_owner s i) eqn:E; [eauto|].
    exfalso. apply (proj1 Hnone eq_refl r team). unfold owns_link. split_and!; eauto.
    apply Hteam; [by eapply list_elem_of_lookup_2|exact Hid].
Qed.

(** *** Teams affected by a change *)




(** *** Resolving an identifier *)

Lemma get_node_elem s x n :
  get_node s x = Some n -> n ∈ snodes s /\ n !! "id" = Some (VStr x).
Proof.
  intros Hg. split.
  - unfold get_node in Hg. apply head_Some_elem_of in Hg.
    by apply list_elem_of_filter in Hg as [_ Hn].
  - apply get_node_some in Hg. unfold has_id in Hg. by apply bool_decide_eq_true in Hg.
Qed.

Lemma node_truthy_get s x :
  node_truthy (get_node s x) = true -> exists n, n ∈ snodes s /\ n !! "id" = Some (VStr x).
Proof.
  destruct (get_node s x) as [n|] eqn:Hg; [|discriminate]. intros _.
  exists n. by apply get_node_elem.
Qed.

(** X14: [IntentParser._resolve_node_id] never invents an id: an id it returns
    is the id of a stored node.  It raises only through [search_nodes]:
    when every stored node has a string name or id containing [ident]
    (case-insensitively) or a name and an id that are strings or absent,
    it always returns. *)
Theorem resolve_node_id_existing (s : store) (ident : string) (v : value) :
  (resolve_node_id s ident = Ret (Some v) ->
   exists n, n ∈ snodes s /\ n !! "id" = Some v) /\
  (Forall (fun n => search_hit ident n = true \/ search_safe n = true) (snodes s) ->
   exists o, resolve_node_id s ident = Ret o).
Proof.
  unfold resolve_node_id. split.
  - destruct (contains ":" ident && node_truthy (get_node s ident)) eqn:E.
    { intros [= <-]. apply andb_true_iff in E as [_ E]. by apply node_truthy_get. }
    destruct (find _ _) as [p|] eqn:Hf.
    { intros [= <-]. apply find_some in Hf as [_ Hp]. by apply node_truthy_get. }
    destruct (search_nodes s ident) as [[|n l]|x] eqn:Hs; try discriminate.
    intros [= Hv]. exists n. split; [|exact Hv].
    eapply search_rows_sub; [exact Hs|left].
  - intros Hf. destruct (contains ":" ident && node_truthy (get_node s ident)); [eauto|].
    destruct (find _ _); [eauto|].
    unfold search_nodes. rewrite (proj1 (search_rows_spec (snodes s) ident) Hf).
    destruct (filter _ _); eauto.
Qed.

(** *** Relationships stay attached *)

Lemma upsert_node_length s nd :
  length (snodes s) <= length (snodes (upsert_node s nd)) /\
  srels (upsert_node s nd) = srels s.
Proof.
  unfold upsert_node. destruct (existsb _ _); simpl.
  - rewrite length_map. split; [lia|reflexivity].
  - rewrite length_app. simpl. split; [lia|reflexivity].
Qed.

Lemma merge_rel_wf e (L : nat) rels a b :
  Forall (fun r => rsrc r < L /\ rtgt r < L) rels -> a < L -> b < L ->
  Forall (fun r => rsrc r < L /\ rtgt r < L) (merge_rel e rels (a, b)).
Proof.
  intros Hf Ha Hb. unfold merge_rel. destruct (existsb _ _).
  - apply Forall_fmap. eapply Forall_impl; [exact Hf|]. intros r Hr. simpl.
    destruct (rel_matches e a b r); exact Hr.
  - apply Forall_app. split; [exact Hf|]. apply Forall_singleton. simpl. lia.
Qed.

Lemma node_idxs_lt s x j : j ∈ node_idxs s x -> j < length (snodes s).
Proof. intros (n & Hn & _)%elem_of_node_idxs. by eapply lookup_lt_Some. Qed.

Lemma upsert_edge_wf s e : store_wf s -> store_wf (upsert_edge s e).
Proof.
  unfold store_wf, upsert_edge. simpl. intros Hwf.
  assert (Hp : forall ab, ab ∈ list_prod (node_idxs s (esource e)) (node_idxs s (etarget e)) ->
                 ab.1 < length (snodes s) /\ ab.2 < length (snodes s)).
  { intros [a b] Hab. apply list_elem_of_In, in_prod_iff in Hab as [Ha Hb].
    split; eapply node_idxs_lt; apply list_elem_of_In; eassumption. }
  revert Hp Hwf. generalize (srels s).
  induction (list_prod (node_idxs s (esource e)) (node_idxs s (etarget e)))
    as [|[a b] ps IH]; intros rels Hp Hwf; simpl; [exact Hwf|].
  apply IH.
  - intros ab Hab. apply Hp. by right.
  - destruct (Hp (a, b)) as [Ha Hb]; [left|]. by apply merge_rel_wf.
Qed.

Lemma delete_node_wf s i : store_wf s -> store_wf (delete_node s i).1.
Proof.
  unfold store_wf, delete_node. simpl. intros Hwf.
  apply Forall_fmap, Forall_forall. intros r Hr.
  apply list_elem_of_filter in Hr as [Hk Hr].
  rewrite Forall_forall in Hwf. destruct (Hwf r Hr) as [Ha Hb]. simpl. apply orb_false_iff in Hk as [Hka Hkb].
  apply lookup_delete_shift in Hka, Hkb.
  apply lookup_lt_is_Some_2 in Ha as [na Ha], Hb as [nb Hb].
  rewrite Ha in Hka. rewrite Hb in Hkb.
  split; eapply lookup_lt_Some; eassumption.
Qed.

Lemma get_all_edges_length s :
  store_wf s -> length (get_all_edges s) = length (srels s).
Proof.
  unfold store_wf, get_all_edges. induction 1 as [|r rs [Ha Hb] Hf IH]; [reflexivity|].
  apply lookup_lt_is_Some_2 in Ha as [a Ha], Hb as [b Hb].
  simpl. rewrite Ha, Hb. simpl. f_equal. exact IH.
Qed.

(** X15: No operation of [GraphStorage] leaves a relationship without both of
    its end nodes: [upsert_node], [upsert_edge] and [delete_node] keep
    every relationship attached, so on any store they build from the empty
    one [get_all_edges] lists every relationship and its length is the
    edge total of [get_graph_stats]. *)
Theorem storage_keeps_edges_attached (s : store) (nd : Node) (e : Edge) (i : string) :
  (store_wf s ->
   store_wf (upsert_node s nd) /\ store_wf (upsert_edge s e) /\
   store_wf (delete_node s i).1) /\
  (built s -> store_wf s /\
   length (get_all_edges s) = total_edges (get_graph_stats s)).
Proof.
  assert (Hn : forall s nd, store_wf s -> store_wf (upsert_node s nd)).
  { intros s' nd' Hwf. unfold store_wf in *. destruct (upsert_node_length s' nd') as [Hl ->].
    eapply Forall_impl; [exact Hwf|]. simpl. lia. }
  split.
  - intros Hwf. split_and!; [by apply Hn|by apply upsert_edge_wf|by apply delete_node_wf].
  - intros Hb. assert (Hwf : store_wf s).
    { induction Hb; [constructor|by apply Hn|by apply upsert_edge_wf|by apply delete_node_wf]. }
    split; [exact Hwf|]. by apply get_all_edges_length.
Qed.

Lemma forall_names_ne (ns : list Node) (x : string) :
  forallb (fun n => negb (String.eqb (nname n) x)) ns = true ->
  forall n, n ∈ ns -> nname n <> x.
Proof.
  intros Hb n Hn Heq. rewrite forallb_forall in Hb.
  apply list_elem_of_In in Hn. specialize (Hb n Hn).
  rewrite Heq, String.eqb_refl in Hb. discriminate.
Qed.

(** *** Witnesses *)

Lemma connector_add_node_add_edge_witness :
  NoDup (map nid [w_api; w_db]) /\ NoDup (map eid [w_calls]) /\
  NoDup (map nid (add_node [w_api; w_db] w_api2)) /\
  add_edge [w_calls] w_calls = [w_calls].
Proof.
  assert (H1 : NoDup (map nid [w_api; w_db])) by decide_by_eval.
  assert (H2 : NoDup (map eid [w_calls])) by decide_by_eval.
  destruct (connector_add_node_add_edge [w_api; w_db] w_api2 [w_calls] w_calls H1 H2)
    as (H3 & _ & _ & _ & H5).
  split_and!; [exact H1|exact H2|exact H3|]. apply (H5 w_calls); [left|reflexivity].
Defined.

Lemma k8s_parse_edges_from_nodes_witness :
  k8s_parse w_k8s_docs = Ret (w_k8s_nodes, w_k8s_edges) /\
  NoDup (map nid w_k8s_nodes) /\ w_k8s_edges <> [].
Proof.
  assert (H : k8s_parse w_k8s_docs = Ret (w_k8s_nodes, w_k8s_edges)).
  { vm_compute. reflexivity. }
  split_and!; [exact H| |discriminate].
  apply (k8s_parse_edges_from_nodes w_k8s_docs _ _ H).
Defined.

Lemma k8s_service_before_deployment_ignored_witness :
  (forall nodes edges, k8s_parse [KDeployment (w_deploy "orders" "payments")] = Ret (nodes, edges) ->
     forall n, n ∈ nodes -> nname n <> "payments") /\
  k8s_parse ([KDeployment (w_deploy "orders" "payments")] ++
             KService "payments" (Some (VInt 8080)) :: [KDeployment (w_deploy "payments" "ledger")])
  = k8s_parse ([KDeployment (w_deploy "orders" "payments")] ++
               [KDeployment (w_deploy "payments" "ledger")]).
Proof.
  assert (H : forall nodes edges,
                k8s_parse [KDeployment (w_deploy "orders" "payments")] = Ret (nodes, edges) ->
                forall n, n ∈ nodes -> nname n <> "payments").
  { intros nodes edges E. vm_compute in E. injection E as <- <-.
    apply forall_names_ne. vm_compute. reflexivity. }
  split; [exact H|].
  apply (k8s_service_before_deployment_ignored _ _ "payments" (Some (VInt 8080)) "AttributeError").
  exact H.
Defined.

Lemma compose_parse_edges_from_nodes_witness :
  compose_parse w_py_int w_svcs = Ret (w_compose_nodes, w_compose_edges) /\
  NoDup (map nid w_compose_nodes) /\ w_compose_edges <> [].
Proof.
  assert (H : compose_parse w_py_int w_svcs = Ret (w_compose_nodes, w_compose_edges)).
  { vm_compute. reflexivity. }
  split_and!; [exact H| |discriminate].
  apply (compose_parse_edges_from_nodes w_py_int w_svcs _ _ H).
Defined.

Lemma parse_environment_last_wins_witness :
  contains "=" "B" = false /\
  dict_get (parse_environment (EnvList (["A=1"; "B=2"; "A=3"] ++ ["B" +:+ String "=" "9"]))) "B"
    = Some "9".
Proof.
  assert (H : contains "=" "B" = false) by reflexivity.
  split; [exact H|].
  apply (parse_environment_last_wins ["A=1"; "B=2"; "A=3"] "A" "B" "9" H).
Defined.

Lemma extract_service_from_url_host_witness :
  contains ":" "postgres" = false /\ "admin" <> "" /\
  extract_service_from_url ("postgres" +:+ "://" +:+ "admin" +:+ String ":" "secret@orders-db:5432/app")
    = Some "admin".
Proof.
  assert (H1 : contains ":" "postgres" = false) by reflexivity.
  assert (H2 : "admin" <> "") by discriminate.
  assert (H3 : Forall (fun c => c ∉ [":"%char; "/"%char; "@"%char])
                      (String.list_ascii_of_string "admin")) by decide_by_eval.
  split_and!; [exact H1|exact H2|].
  apply (extract_service_from_url_host "" "" "postgres" "admin" "secret@orders-db:5432/app");
    assumption.
Defined.

Lemma extract_service_from_k8s_url_host_witness :
  "payments:8080" <> "" /\
  extract_service_from_k8s_url ("http://" +:+ "payments:8080" +:+ String "." "svc.cluster.local")
    = Some "payments:8080".
Proof.
  assert (H1 : "payments:8080" <> "") by discriminate.
  assert (H2 : Forall (fun c => c ∉ ["."%char])
                      (String.list_ascii_of_string "payments:8080")) by decide_by_eval.
  split; [exact H1|].
  apply (extract_service_from_k8s_url_host "" "" "payments:8080" "svc.cluster.local");
    assumption.
Defined.

Lemma delete_node_detaches_witness :
  "service:api" <> "database:db" /\
  get_node (delete_node w_store "database:db").1 "service:api" = get_node w_store "service:api".
Proof.
  assert (H : "service:api" <> "database:db") by discriminate.
  split; [exact H|].
  apply (delete_node_detaches w_store "database:db" "service:api"). exact H.
Defined.

Lemma get_graph_stats_counts_witness :
  Forall (fun n => str_or_null (n !! "type") = true) (snodes w_store) /\
  sum_list (map snd (nodes_by_type (get_graph_stats w_store)))
    = total_nodes (get_graph_stats w_store) /\
  nodes_by_type (get_graph_stats w_mixed_types)
    = [(Some (VInt 1%Z), 1); (Some (VStr "service"), 1)] /\
  total_nodes (get_graph_stats w_mixed_types) = 3.
Proof.
  assert (H : Forall (fun n => str_or_null (n !! "type") = true) (snodes w_store))
    by decide_by_eval.
  split; [exact H|]. split.
  - exact (proj2 (proj2 (proj2 (get_graph_stats_counts w_store))) H).
  - split; vm_compute; reflexivity.
Defined.

Lemma search_nodes_type_error_or_filter_witness :
  Forall (fun n => search_hit "service:api" n = true \/ search_safe n = true) (snodes w_store) /\
  w_api_props ∈ snodes w_store /\
  w_api_props !! "id" = Some (VStr "service:api") /\
  exists l, search_nodes w_store "service:api" = Ret l /\ w_api_props ∈ l.
Proof.
  assert (H1 : Forall (fun n => search_hit "service:api" n = true \/ search_safe n = true)
                 (snodes w_store)) by decide_by_eval.
  assert (H2 : w_api_props ∈ snodes w_store) by decide_by_eval.
  assert (H3 : w_api_props !! "id" = Some (VStr "service:api")) by (vm_compute; reflexivity).
  split_and!; [exact H1|exact H2|exact H3|].
  apply (search_nodes_type_error_or_filter w_store "service:api" w_api_props);
    [exact H1|exact H2|left; exact H3].
Defined.

(** A node whose [name] is a number: the type error is held back when its
    id matches the query, and raised when nothing matches. *)
Lemma search_nodes_or_holds_error_example :
  search_hit "ledger" w_num_name_props = false /\ search_safe w_num_name_props = false /\
  search_nodes w_num_name "ledger" = Raise "TypeError" /\
  search_nodes w_num_name "API" = Ret [w_num_name_props].
Proof. split_and!; vm_compute; reflexivity. Qed.

Lemma get_owner_owned_by_team_witness :
  get_owner w_store "service:api" = Some w_team_props /\
  w_team_props !! "id" = Some (VStr ("team:" +:+ "platform")) /\
  exists o, o ∈ get_nodes_owned_by_team w_store "platform" /\ o !! "id" = Some (VStr "service:api").
Proof.
  assert (H1 : get_owner w_store "service:api" = Some w_team_props) by (vm_compute; reflexivity).
  assert (H2 : w_team_props !! "id" = Some (VStr ("team:" +:+ "platform")))
    by (vm_compute; reflexivity).
  split_and!; [exact H1|exact H2|].
  apply (get_owner_owned_by_team w_store "service:api" "platform" w_team_props); assumption.
Defined.


Lemma resolve_node_id_existing_witness :
  resolve_node_id w_store "api" = Ret (Some (VStr "service:api")) /\
  exists n, n ∈ snodes w_store /\ n !! "id" = Some (VStr "service:api").
Proof.
  assert (H : resolve_node_id w_store "api" = Ret (Some (VStr "service:api")))
    by (vm_compute; reflexivity).
  split; [exact H|].
  apply (resolve_node_id_existing w_store "api" (VStr "service:api")). exact H.
Defined.

Lemma storage_keeps_edges_attached_witness :
  built (delete_node w_store "database:db").1 /\
  length (get_all_edges (delete_node w_store "database:db").1)
    = total_edges (get_graph_stats (delete_node w_store "database:db").1).
Proof.
  assert (H : built (delete_node w_store "database:db").1).
  { unfold w_store. repeat constructor. }
  split; [exact H|].
  apply (storage_keeps_edges_attached (delete_node w_store "database:db").1 w_api w_calls ""). exact H.
Defined.
